(** * Route landmark annotation: a shallow embedding of analyzeGpxRouteWithProgress

    The engine resamples a GPS track into distance markers, buckets the
    elements returned by an external geodata lookup into passes, rivers and
    towns, classifies every marker by its nearest feature, and reduces the
    classified markers with a three-pass block filter followed by a
    proximity collapse.

    Modelling conventions.
    - JavaScript numbers are idealised as rationals ([Q]): comparisons and
      [Math.round]/[Math.floor] are exact, and NaN or infinities do not
      arise from arithmetic.  The one place where the code itself produces
      NaN, [parseInt] of an empty string, is modelled explicitly ([PopNum]).
    - The great-circle distance [haversine] is built from [Math.sin],
      [Math.cos] and [Math.atan2]; it is a section variable, so every result
      holds for whatever distance function is plugged in.
    - A property that may be [undefined] is an [option]; reading a property
      of [undefined] is a [TypeError].
    - Objects used as dictionaries keyed by a kilometre or block number are
      [gmap Z _]; objects and [Set]s used as sets are [gset].
    - The payload of the lookup is taken to be well formed, as the geodata
      service delivers it: [elements] is absent or an array of objects, and
      the tags that are present hold strings.  On any other payload
      ([elements] that cannot be iterated, a [null] element, a number as a
      name or as a population) the code raises a TypeError behind its
      [try]/[catch]; such payloads cannot be written in [Lookup], and every
      statement about all lookups speaks of failing lookups and of well-formed
      payloads only. *)

From Stdlib Require Import ZArith QArith Qround Qminmax Qabs Ascii String Lia Lqa.
From stdpp Require Import gmap strings sorting.

(** ** JavaScript values *)

(** [Math.round]: nearest integer, halves towards plus infinity. *)
Definition Math_round (x : Q) : Z := Qfloor (x + (1 # 2)).

(** [x < y] and [x >= y] on numbers. *)
Definition numLt (x y : Q) : bool := negb (Qle_bool y x).
Definition numGe (x y : Q) : bool := Qle_bool y x.

(** Truthiness: a number is falsy when it is 0, [undefined] is falsy, a
    string is falsy when it is empty. *)
Definition truthyNum (x : Q) : bool := negb (Qeq_bool x 0).

Definition truthy (v : option Q) : bool :=
  match v with
  | Some x => truthyNum x
  | None => false
  end.

(** [a || b] on possibly undefined numbers. *)
Definition jsOr (a b : option Q) : option Q := if truthy a then a else b.

(** [s || d] where [s] is a possibly undefined string and [d] a literal. *)
Definition strOr (s : option string) (d : string) : string :=
  match s with
  | Some x => if String.eqb x "" then d else x
  | None => d
  end.

(** ** Data model *)

Record Point := { lat : Q; lon : Q; ele : Q }.

Record Center := { c_lat : option Q; c_lon : option Q }.

(** The tags the engine reads.  An element without a [tags] object carries
    the record with every field undefined: each read of [el.tags.x] in the
    source is guarded by [el.tags &&], so the two behave alike.  A tag that
    is present holds a string, as in a well-formed payload; a number there
    (on which [entry.name.toLowerCase] and [population.replace] raise a
    TypeError) is not represented. *)
Record Tags := {
  tag_mountain_pass : option string;
  tag_waterway : option string;
  tag_place : option string;
  tag_name : option string;
  tag_population : option string
}.

Record Element := {
  el_lat : option Q;
  el_lon : option Q;
  center : option Center;
  tags : Tags
}.

Inductive LandmarkType := pass | river | town.

Definition typeStr (t : LandmarkType) : string :=
  match t with
  | pass => "pass"
  | river => "river"
  | town => "town"
  end.

Record Entry := { type : LandmarkType; name : string }.

#[global] Instance LandmarkType_eq_dec : EqDecision LandmarkType.
Proof. solve_decision. Defined.

#[global] Instance Entry_eq_dec : EqDecision Entry.
Proof. solve_decision. Defined.

(** ** Peak detection (isPeak) *)

Definition PEAK_WINDOW : nat := 2.

(** [points[j].ele > thisEle]; [j] is in range wherever this is used. *)
Definition higher (points : list Point) (j : nat) (thisEle : Q) : bool :=
  match points !! j with
  | Some q => numLt thisEle (ele q)
  | None => false
  end.

(** The [for] loop of isPeak from [offset], with [fuel] iterations left.
    [idx - offset >= 0] on JavaScript numbers is [offset <= idx] here. *)
Fixpoint isPeakFrom (points : list Point) (idx : nat) (thisEle : Q)
    (offset fuel : nat) : bool :=
  match fuel with
  | O => true
  | S fuel' =>
      if (offset <=? idx)%nat && higher points (idx - offset) thisEle then false
      else if (idx + offset <? length points)%nat
              && higher points (idx + offset) thisEle then false
      else isPeakFrom points idx thisEle (S offset) fuel'
  end.

(** [None] is the TypeError raised by [points[idx].ele] out of range. *)
Definition isPeak (points : list Point) (idx : nat) : option bool :=
  p ← points !! idx;
  Some (isPeakFrom points idx (ele p) 1 PEAK_WINDOW).

(** ** Positions used by the nearest-feature searches *)

(** [if (rlat && rlon)]: both coordinates present and non-zero. *)
Definition usable (rlat rlon : option Q) : option (Q * Q) :=
  match rlat, rlon with
  | Some a, Some b => if truthyNum a && truthyNum b then Some (a, b) else None
  | _, _ => None
  end.

(** Passes and towns: [el.lat && el.lon]. *)
Definition nodePosition (el : Element) : option (Q * Q) :=
  usable (el_lat el) (el_lon el).

(** Rivers: [el.lat || (el.center && el.center.lat)], and the same for
    the longitude, each coordinate on its own. *)
Definition riverPosition (el : Element) : option (Q * Q) :=
  let rlat := jsOr (el_lat el) (center el ≫= c_lat) in
  let rlon := jsOr (el_lon el) (center el ≫= c_lon) in
  usable rlat rlon.

(** ** Bucketing the lookup payload *)

Definition isPass (el : Element) : bool :=
  bool_decide (tag_mountain_pass (tags el) = Some "yes").

Definition isRiver (el : Element) : bool :=
  bool_decide (tag_waterway (tags el) = Some "river").

Definition isTown (el : Element) : bool :=
  bool_decide (tag_place (tags el) = Some "town")
  || bool_decide (tag_place (tags el) = Some "city")
  || bool_decide (tag_place (tags el) = Some "village").

Record Features := {
  passes : list Element;
  rivers : list Element;
  towns : list Element
}.

Definition noFeatures : Features := {| passes := []; rivers := []; towns := [] |}.

(** One iteration of [for (let el of overpassResult.elements)]. *)
Definition bucket (fs : Features) (el : Element) : Features :=
  if isPass el then
    {| passes := passes fs ++ [el]; rivers := rivers fs; towns := towns fs |}
  else if isRiver el then
    {| passes := passes fs; rivers := rivers fs ++ [el]; towns := towns fs |}
  else if isTown el then
    {| passes := passes fs; rivers := rivers fs; towns := towns fs ++ [el] |}
  else fs.

(** What the awaited lookup delivers: it throws, or it yields a well-formed
    payload, whose [elements] may be missing ([null] payloads included) and
    is otherwise an array of objects.  An [elements] that is truthy but
    cannot be iterated, or that holds [null], makes the bucketing loop raise
    a TypeError; it is not represented. *)
Inductive Lookup :=
  | lookupThrows
  | lookupJson (elements : option (list Element)).

(** [try { ... } catch {}] followed by
    [if (overpassResult && overpassResult.elements)]. *)
Definition featuresOf (r : Lookup) : Features :=
  match r with
  | lookupJson (Some els) => fold_left bucket els noFeatures
  | _ => noFeatures
  end.

(** ** Strings used by the filter *)

Definition lowerAscii (c : ascii) : ascii :=
  let n := nat_of_ascii c in
  if (65 <=? n)%nat && (n <=? 90)%nat then ascii_of_nat (n + 32) else c.

(** [toLowerCase], on ASCII letters. *)
Fixpoint toLowerCase (s : string) : string :=
  match s with
  | EmptyString => EmptyString
  | String c s' => String (lowerAscii c) (toLowerCase s')
  end.

(** [s.includes(needle)]. *)
Fixpoint includes (needle s : string) : bool :=
  String.prefix needle s
  || match s with
     | EmptyString => false
     | String _ s' => includes needle s'
     end.

(** [entry.name.toLowerCase().includes('unnamed')]. *)
Definition isUnnamed (n : string) : bool := includes "unnamed" (toLowerCase n).

(** [entry.type + '|' + entry.name]. *)
Definition entryKey (e : Entry) : string := typeStr (type e) +:+ "|" +:+ name e.

(** ** Population of a town *)

(** The result of [parseInt]: NaN or a non-negative integer. *)
Inductive PopNum := PopNaN | PopVal (n : N).

Definition isDigit (c : ascii) : bool :=
  let n := nat_of_ascii c in (48 <=? n)%nat && (n <=? 57)%nat.

(** [s.replace(/\D/g, '')]. *)
Fixpoint stripNonDigits (s : string) : string :=
  match s with
  | EmptyString => EmptyString
  | String c s' =>
      if isDigit c then String c (stripNonDigits s') else stripNonDigits s'
  end.

Fixpoint digitsValue (s : string) (acc : N) : N :=
  match s with
  | EmptyString => acc
  | String c s' => digitsValue s' (10 * acc + N.of_nat (nat_of_ascii c - 48))
  end.

(** [parseInt] on a string of decimal digits: NaN when there is none.  The
    value is the exact integer; the code's is the nearest double, which is
    the same number up to 2^53. *)
Definition parseIntDigits (s : string) : PopNum :=
  match s with
  | EmptyString => PopNaN
  | _ => PopVal (digitsValue s 0)
  end.

(** [a > b]: false as soon as one side is NaN. *)
Definition popGt (a b : PopNum) : bool :=
  match a, b with
  | PopVal x, PopVal y => (y <? x)%N
  | _, _ => false
  end.

(** [towns.find(t => t.tags && (t.tags.name || 'Unnamed Town') === entry.name)]
    then [el && el.tags && el.tags.population ? parseInt(...) : 0]. *)
Definition townPopulation (towns : list Element) (entry : Entry) : PopNum :=
  match find (λ t, bool_decide (strOr (tag_name (tags t)) "Unnamed Town" = name entry))
             towns with
  | Some el =>
      match tag_population (tags el) with
      | Some s =>
          if String.eqb s "" then PopVal 0
          else parseIntDigits (stripNonDigits s)
      | None => PopVal 0
      end
  | None => PopVal 0
  end.

(** ** The block filter *)

(** [Math.floor(km / 10)]. *)
Definition blockOf (km : Z) : Z := (km `div` 10)%Z.

Record FilterState := {
  filtered : gmap Z Entry;
  blockHas : gset Z;
  seen : gset string
}.

Definition initFilter : FilterState :=
  {| filtered := ∅; blockHas := ∅; seen := ∅ |}.

(** [filtered[km] = entry; blockHas[block] = true; seen.add(key)]. *)
Definition accept (km : Z) (entry : Entry) (st : FilterState) : FilterState :=
  {| filtered := <[km := entry]> (filtered st);
     blockHas := {[blockOf km]} ∪ blockHas st;
     seen := {[entryKey entry]} ∪ seen st |}.

(** Pass 1, one marker. *)
Definition pass1Step (summary : gmap Z Entry) (st : FilterState) (km : Z)
    : FilterState :=
  match summary !! km with
  | None => st
  | Some entry =>
      if isUnnamed (name entry) then st
      else if bool_decide (blockOf km ∈ blockHas st) then st
      else if bool_decide (type entry = pass) then accept km entry st
      else st
  end.

(** Pass 2, one marker. *)
Definition pass2Step (summary : gmap Z Entry) (st : FilterState) (km : Z)
    : FilterState :=
  match summary !! km with
  | None => st
  | Some entry =>
      if negb (bool_decide (type entry = river)) then st
      else if isUnnamed (name entry) then st
      else if bool_decide (blockOf km ∈ blockHas st) then st
      else if bool_decide (entryKey entry ∈ seen st) then st
      else accept km entry st
  end.

(** Pass 3 keeps, per block, [{ km, entry, pop }]. *)
Record TownCand := { cand_km : Z; cand_entry : Entry; cand_pop : PopNum }.

(** Pass 3, first loop, one marker. *)
Definition collectStep (summary : gmap Z Entry) (towns : list Element)
    (st : FilterState) (blockTowns : gmap Z TownCand) (km : Z)
    : gmap Z TownCand :=
  match summary !! km with
  | None => blockTowns
  | Some entry =>
      if negb (bool_decide (type entry = town)) then blockTowns
      else if isUnnamed (name entry) then blockTowns
      else if bool_decide (blockOf km ∈ blockHas st) then blockTowns
      else
        let pop := townPopulation towns entry in
        let cand := {| cand_km := km; cand_entry := entry; cand_pop := pop |} in
        match blockTowns !! blockOf km with
        | None => <[blockOf km := cand]> blockTowns
        | Some cur =>
            if popGt pop (cand_pop cur) then <[blockOf km := cand]> blockTowns
            else blockTowns
        end
  end.

(** The keys of an object with integer keys, as [for ... in] and
    [Object.keys(...).sort((a, b) => a - b)] enumerate them: ascending (for
    the non-negative keys the engine produces, [for ... in] is ascending
    by itself). *)
Definition sortedKeys {V} (m : gmap Z V) : list Z :=
  merge_sort Z.le (elements (dom m)).

(** Pass 3, second loop, one block. *)
Definition acceptStep (blockTowns : gmap Z TownCand) (st : FilterState)
    (block : Z) : FilterState :=
  match blockTowns !! block with
  | None => st
  | Some c =>
      if bool_decide (block ∈ blockHas st) then st
      else
        let key := entryKey (cand_entry c) in
        if bool_decide (key ∈ seen st) then
          {| filtered := filtered st;
             blockHas := {[block]} ∪ blockHas st;
             seen := seen st |}
        else
          {| filtered := <[cand_km c := cand_entry c]> (filtered st);
             blockHas := {[block]} ∪ blockHas st;
             seen := {[key]} ∪ seen st |}
  end.

Definition pass1 (kmMarkers : list Z) (summary : gmap Z Entry) : FilterState :=
  fold_left (pass1Step summary) kmMarkers initFilter.

Definition pass2 (kmMarkers : list Z) (summary : gmap Z Entry)
    (st : FilterState) : FilterState :=
  fold_left (pass2Step summary) kmMarkers st.

Definition collectTowns (kmMarkers : list Z) (summary : gmap Z Entry)
    (towns : list Element) (st : FilterState) : gmap Z TownCand :=
  fold_left (collectStep summary towns st) kmMarkers ∅.

Definition acceptTowns (blockTowns : gmap Z TownCand) (st : FilterState)
    : FilterState :=
  fold_left (acceptStep blockTowns) (sortedKeys blockTowns) st.

Definition pass3 (kmMarkers : list Z) (summary : gmap Z Entry)
    (towns : list Element) (st : FilterState) : FilterState :=
  acceptTowns (collectTowns kmMarkers summary towns st) st.

(** ** The proximity collapse *)

Definition COLLAPSE_KM : Z := 5.

(** The marking loop from index [i] on, [prev] being [filteredKms[i - 1]].
    [toRemove], a [Set] that is only added to and then iterated, is the
    list of its elements in insertion order. *)
Fixpoint markClose (prev : Z) (rest : list Z) (toRemove : list Z) : list Z :=
  match rest with
  | [] => toRemove
  | k :: rest' =>
      markClose k rest'
        (if (k - prev <? COLLAPSE_KM)%Z then toRemove ++ [prev] else toRemove)
  end.

Definition marked (filteredKms : list Z) : list Z :=
  match filteredKms with
  | [] => []
  | k :: rest => markClose k rest []
  end.

(** [for (let km of toRemove) delete filtered[km]]. *)
Definition collapse (filtered : gmap Z Entry) : gmap Z Entry :=
  fold_left (λ f km, delete km f) (marked (sortedKeys filtered)) filtered.

Definition filterStage (kmMarkers : list Z) (summary : gmap Z Entry)
    (towns : list Element) : gmap Z Entry :=
  let st1 := pass1 kmMarkers summary in
  let st2 := pass2 kmMarkers summary st1 in
  let st3 := pass3 kmMarkers summary towns st2 in
  collapse (filtered st3).

(** ** Events and outcomes of one run *)

Inductive Event :=
  | Progress (processed total : nat)
  | Done (result : gmap Z Entry).

Inductive Error := TypeError.

(** A run completes, or an exception escapes it (the promise rejects);
    either way [trace] lists the callback invocations made so far. *)
Inductive Outcome :=
  | Completed (trace : list Event)
  | Raised (e : Error) (trace : list Event).

Record BBox := { minLat : Q; minLon : Q; maxLat : Q; maxLon : Q }.

(** [Math.min(...xs)] and [Math.max(...xs)].  The argument list holds one
    number per marker and marker 0 always exists, so the value for no
    argument at all (an infinity) is never asked for. *)
Definition Math_min (xs : list Q) : Q :=
  match xs with
  | [] => 0
  | x :: r => fold_left Qmin r x
  end.

Definition Math_max (xs : list Q) : Q :=
  match xs with
  | [] => 0
  | x :: r => fold_left Qmax r x
  end.

Definition BBOX_MARGIN : Q := 0.01.

(** The bounding box of the sampled points; [None] is the TypeError of
    [points[i].lat] when [points[i]] is undefined. *)
Definition boundingBox (points : list Point) (markerIndices : list nat)
    : option BBox :=
  sampled ← mapM (λ i, points !! i) markerIndices;
  Some {| minLat := Math_min (lat <$> sampled) - BBOX_MARGIN;
          minLon := Math_min (lon <$> sampled) - BBOX_MARGIN;
          maxLat := Math_max (lat <$> sampled) + BBOX_MARGIN;
          maxLon := Math_max (lon <$> sampled) + BBOX_MARGIN |}.

Definition SAMPLE_EVERY_KM : Q := 1.

Definition PROXIMITY_KM : Q := 1.0.

(** The sampler's three variables. *)
Record Sampler := {
  kmMarkers : list Z;
  markerIndices : list nat;
  cumDist : Q
}.

Definition initSampler : Sampler :=
  {| kmMarkers := [0%Z]; markerIndices := [0%nat]; cumDist := 0 |}.

Definition emit (st : Sampler) : list (Z * nat) :=
  zip (kmMarkers st) (markerIndices st).

Section Engine.

(** [haversine lat1 lon1 lat2 lon2], in kilometres. *)
Variable haversine : Q → Q → Q → Q → Q.

(** *** Distance sampler *)

(** The body of the sampling loop at index [i], [prev] being
    [points[i - 1]] and [p] being [points[i]]. *)
Definition sampleStep (prev p : Point) (i : nat) (st : Sampler) : Sampler :=
  let cumDist' :=
    (cumDist st + haversine (lat prev) (lon prev) (lat p) (lon p))%Q in
  if numGe cumDist' (inject_Z (default 0%Z (last (kmMarkers st))) + SAMPLE_EVERY_KM)%Q then
    {| kmMarkers := kmMarkers st ++ [Math_round cumDist'];
       markerIndices := markerIndices st ++ [i];
       cumDist := cumDist' |}
  else
    {| kmMarkers := kmMarkers st;
       markerIndices := markerIndices st;
       cumDist := cumDist' |}.

Fixpoint sampleLoop (prev : Point) (rest : list Point) (i : nat)
    (st : Sampler) : Sampler :=
  match rest with
  | [] => st
  | p :: rest' => sampleLoop p rest' (S i) (sampleStep prev p i st)
  end.

Definition sampleMarkers (points : list Point) : Sampler :=
  match points with
  | [] => initSampler
  | p0 :: rest => sampleLoop p0 rest 1 initSampler
  end.

(** *** Nearest-feature search *)

(** One iteration of a search loop; [acc] is the pair of the nearest
    feature so far and its distance. *)
Definition nearestStep (position : Element → option (Q * Q)) (lat lon : Q)
    (acc : option Element * Q) (el : Element) : option Element * Q :=
  match position el with
  | Some (elat, elon) =>
      let d := haversine lat lon elat elon in
      if numLt d (snd acc) then (Some el, d) else acc
  | None => acc
  end.

Definition nearest (position : Element → option (Q * Q)) (lat lon : Q)
    (els : list Element) : option Element :=
  fst (fold_left (nearestStep position lat lon) els (None, PROXIMITY_KM)).

(** *** Marker classifier *)

(** The entry written to [summary] for the marker at point index [idx],
    if any; the outer [None] is a TypeError. *)
Definition classifyMarker (points : list Point) (fs : Features) (idx : nat)
    : option (option Entry) :=
  p ← points !! idx;
  match nearest nodePosition (lat p) (lon p) (passes fs) with
  | Some nearestPass =>
      Some (Some {| type := pass;
                    name := strOr (tag_name (tags nearestPass)) "Unnamed Pass" |})
  | None =>
      match nearest riverPosition (lat p) (lon p) (rivers fs) with
      | Some nearestRiver =>
          Some (Some {| type := river;
                        name := strOr (tag_name (tags nearestRiver)) "Unnamed River" |})
      | None =>
          match nearest nodePosition (lat p) (lon p) (towns fs) with
          | Some nearestTown =>
              peak ← isPeak points idx;
              Some (Some (if peak : bool then
                            {| type := pass;
                               name := strOr (tag_name (tags nearestTown))
                                             "Unnamed Town (Peak)" |}
                          else
                            {| type := town;
                               name := strOr (tag_name (tags nearestTown))
                                             "Unnamed Town" |}))
          | None => Some None
          end
      end
  end.

(** The classification loop from marker number [m] on.  [inl] carries
    the trace up to a TypeError. *)
Fixpoint classifyAll (points : list Point) (fs : Features)
    (progressCallback : bool) (total : nat) (markers : list (Z * nat))
    (m : nat) (summary : gmap Z Entry) (trace : list Event)
    : list Event + gmap Z Entry * list Event :=
  match markers with
  | [] => inr (summary, trace)
  | (km, idx) :: rest =>
      match classifyMarker points fs idx with
      | None => inl trace
      | Some found =>
          let summary' :=
            match found with
            | Some entry => <[km := entry]> summary
            | None => summary
            end in
          let trace' :=
            if progressCallback then trace ++ [Progress (m + 1) total]
            else trace in
          classifyAll points fs progressCallback total rest (S m) summary' trace'
      end
  end.

(** *** The engine *)

(** [lookup] stands for the awaited fetch of the features in a bounding
    box; [progressCallback] and [doneCallback] tell whether the caller
    supplied the callback. *)
Definition analyzeGpxRouteWithProgress (lookup : BBox → Lookup)
    (points : list Point) (progressCallback doneCallback : bool) : Outcome :=
  let s := sampleMarkers points in
  match boundingBox points (markerIndices s) with
  | None => Raised TypeError []
  | Some bbox =>
      let fs := featuresOf (lookup bbox) in
      match classifyAll points fs progressCallback (length (kmMarkers s))
              (emit s) 0 ∅ [] with
      | inl trace => Raised TypeError trace
      | inr (summary, trace) =>
          let result := filterStage (kmMarkers s) summary (towns fs) in
          Completed (if doneCallback then trace ++ [Done result] else trace)
      end
  end.

End Engine.

(** ** The statistics calculator's entry check *)

Inductive StatsError := NotEnoughTrackPoints.

(** [calculateStats]: the guard, then the three computations, whose merged
    result is [compute trkpts]. *)
Definition calculateStats {TrkPt Stats : Type} (compute : list TrkPt → Stats)
    (trkpts : list TrkPt) : StatsError + Stats :=
  if (length trkpts <? 2)%nat then inl NotEnoughTrackPoints
  else inr (compute trkpts).

(** ** Ride statistics (GpxStatsCalculator) *)

(** A track point as the statistics read it: its position, the number in
    its [ele] tag if there is one, and its time stamp in milliseconds (time
    stamps are taken to be valid dates). *)
Record TrackPoint := {
  tp_lat : Q;
  tp_lon : Q;
  tp_ele : option Q;
  tp_time : Z
}.

Record TimeStats := {
  startTime : Z;
  endTime : Z;
  timeDiffMs : Z;
  timeDiffH : Z;
  timeDiffM : Z;
  timeDiffS : Z
}.

(** [calculateTimeStats].  [%] is the remainder that takes the sign of the
    dividend and [Math.floor(x / c)] is floor division; [None] is the
    TypeError of reading [trkpts[0]] of an empty array. *)
Definition calculateTimeStats (trkpts : list TrackPoint) : option TimeStats :=
  first ← head trkpts;
  final ← last trkpts;
  let ms := (tp_time final - tp_time first)%Z in
  Some {| startTime := tp_time first;
          endTime := tp_time final;
          timeDiffMs := ms;
          timeDiffH := (ms `div` 3600000)%Z;
          timeDiffM := ((ms `rem` 3600000) `div` 60000)%Z;
          timeDiffS := ((ms `rem` 60000) `div` 1000)%Z |}.

(** The two settings of the calculator and their initial values. *)
Record Thresholds := { movingThreshold : Q; stopThreshold : Q }.

Definition defaultThresholds : Thresholds :=
  {| movingThreshold := 1.5; stopThreshold := 45 |}.

Record RideStats := {
  totalDist : Q;
  rideTimeMs : Z;
  rideTimeH : Z;
  rideTimeM : Z;
  rideTimeS : Z;
  avgSpeedOverall : Q;
  avgSpeedMoving : Q
}.

(** [parseFloat(pt.getElementsByTagName('ele')[0]?.textContent || 0)]. *)
Definition eleOf (p : TrackPoint) : Q := default 0%Q (tp_ele p).

Record ElevationStats := { totalAsc : Z; totalDesc : Z }.

(** One iteration of the loop of [calculateElevationStats] on the pair of
    running sums. *)
Definition elevationStep (prev p : TrackPoint) (acc : Q * Q) : Q * Q :=
  let diff := (eleOf p - eleOf prev)%Q in
  if numLt 0 diff then ((fst acc + diff)%Q, snd acc)
  else if numLt diff 0 then (fst acc, (snd acc + Qabs diff)%Q)
  else acc.

Fixpoint elevationLoop (prev : TrackPoint) (rest : list TrackPoint)
    (acc : Q * Q) : Q * Q :=
  match rest with
  | [] => acc
  | p :: rest' => elevationLoop p rest' (elevationStep prev p acc)
  end.

(** The sums of climbs and of descents before they are rounded. *)
Definition elevationSums (trkpts : list TrackPoint) : Q * Q :=
  match trkpts with
  | [] => (0%Q, 0%Q)
  | p0 :: rest => elevationLoop p0 rest (0%Q, 0%Q)
  end.

(** [Math.round(x / 10) * 10]. *)
Definition roundTo10 (x : Q) : Z := (Math_round (x / 10) * 10)%Z.

Definition calculateElevationStats (trkpts : list TrackPoint) : ElevationStats :=
  {| totalAsc := roundTo10 (fst (elevationSums trkpts));
     totalDesc := roundTo10 (snd (elevationSums trkpts)) |}.

Section Stats.

(** [this.haversine], in kilometres. *)
Variable haversine : Q → Q → Q → Q → Q.
Variable th : Thresholds.

(** One iteration of the loop of [calculateDistanceAndRideTime] on
    [(totalDist, rideTimeMs)].  [speed] is only looked at behind
    [dt > 0], so its value for [dt = 0] does not matter. *)
Definition rideStep (prev p : TrackPoint) (acc : Q * Z) : Q * Z :=
  let dist := (haversine (tp_lat prev) (tp_lon prev) (tp_lat p) (tp_lon p) * 1000)%Q in
  let totalDist' := (fst acc + dist / 1000)%Q in
  let dt := (inject_Z (tp_time p - tp_time prev) / 1000)%Q in
  let speed := (dist / dt)%Q in
  if numLt 0 dt && numLt (movingThreshold th) speed then
    (totalDist', (snd acc + (tp_time p - tp_time prev))%Z)
  else if numLt 0 dt && numLt dt (stopThreshold th) then
    (totalDist', (snd acc + (tp_time p - tp_time prev))%Z)
  else (totalDist', snd acc).

Fixpoint rideLoop (prev : TrackPoint) (rest : list TrackPoint) (acc : Q * Z)
    : Q * Z :=
  match rest with
  | [] => acc
  | p :: rest' => rideLoop p rest' (rideStep prev p acc)
  end.

Definition rideSums (trkpts : list TrackPoint) : Q * Z :=
  match trkpts with
  | [] => (0%Q, 0%Z)
  | p0 :: rest => rideLoop p0 rest (0%Q, 0%Z)
  end.

Definition calculateDistanceAndRideTime (trkpts : list TrackPoint)
    (timeDiffMs : Z) : RideStats :=
  let totalDist := fst (rideSums trkpts) in
  let rideTimeMs := snd (rideSums trkpts) in
  let totalTimeHours := (inject_Z timeDiffMs / 3600000)%Q in
  let rideTimeHours := (inject_Z rideTimeMs / 3600000)%Q in
  {| totalDist := totalDist;
     rideTimeMs := rideTimeMs;
     rideTimeH := (rideTimeMs `div` 3600000)%Z;
     rideTimeM := ((rideTimeMs `rem` 3600000) `div` 60000)%Z;
     rideTimeS := ((rideTimeMs `rem` 60000) `div` 1000)%Z;
     avgSpeedOverall :=
       if numLt 0 totalTimeHours then (totalDist / totalTimeHours)%Q else 0%Q;
     avgSpeedMoving :=
       if numLt 0 rideTimeHours then (totalDist / rideTimeHours)%Q else 0%Q |}.

(** What [calculateStats] computes behind its guard: the three records
    it merges. *)
Definition statsOf (trkpts : list TrackPoint)
    : option (TimeStats * RideStats * ElevationStats) :=
  timeStats ← calculateTimeStats trkpts;
  Some (timeStats,
        calculateDistanceAndRideTime trkpts (timeDiffMs timeStats),
        calculateElevationStats trkpts).

End Stats.

(** ** Elevation profile (ElevationProfileGenerator) *)

(** A number that may be NaN or infinite ([None]). *)
Definition optAdd (a b : option Q) : option Q :=
  match a, b with
  | Some x, Some y => Some (x + y)%Q
  | _, _ => None
  end.

(** [a / b]: not a finite number when [b] is 0. *)
Definition jsDiv (a b : Q) : option Q :=
  if Qeq_bool b 0 then None else Some (a / b)%Q.

Section Profile.

(** [this.haversine], in kilometres. *)
Variable haversine : Q → Q → Q → Q → Q.

(** The loop of [calculateCumulativeDistances] from the index after the
    point ([prevLat], [prevLon]); [lats] and [lons] are what is left of the
    two arrays.  A missing longitude makes the distance NaN. *)
Fixpoint cumulativeLoop (prevLat : Q) (prevLon : option Q) (lats lons : list Q)
    (totalDistance : option Q) : list (option Q) :=
  match lats with
  | [] => []
  | la :: lats' =>
      let dist :=
        match prevLon, head lons with
        | Some plo, Some lo => Some (haversine prevLat plo la lo)
        | _, _ => None
        end in
      let totalDistance' := optAdd totalDistance dist in
      totalDistance' :: cumulativeLoop la (head lons) lats' (tail lons) totalDistance'
  end.

Definition calculateCumulativeDistances (lats lons : list Q) : list (option Q) :=
  Some 0%Q ::
  match lats with
  | [] => []
  | la :: lats' => cumulativeLoop la (head lons) lats' (tail lons) (Some 0%Q)
  end.

End Profile.

(** The step sizes [niceStep] chooses from. *)
Definition steps : list Q :=
  [0.1; 0.2; 0.5; 1; 2; 5; 10; 20; 50; 100; 200; 500]%Q.

(** [niceStep(range, targetLines)], for a non-zero number of lines. *)
Definition niceStep (range targetLines : Q) : Q :=
  let roughStep := (range / targetLines)%Q in
  fold_left (λ bestStep s, if numGe roughStep s then s else bestStep)
    steps 0.1%Q.

(** The geometry of the canvas. *)
Record Canvas := {
  canvasWidth : Q;
  canvasHeight : Q;
  paddingLeft : Q;
  paddingTop : Q;
  paddingRight : Q;
  paddingBottom : Q
}.

(** The constructor's values when there is no map element. *)
Definition defaultCanvas : Canvas :=
  {| canvasWidth := 600; canvasHeight := 350; paddingLeft := 80;
     paddingTop := 30; paddingRight := 20; paddingBottom := 60 |}.

Definition plotWidth (cv : Canvas) : Q :=
  (canvasWidth cv - paddingLeft cv - paddingRight cv)%Q.

Definition plotHeight (cv : Canvas) : Q :=
  (canvasHeight cv - paddingTop cv - paddingBottom cv)%Q.

(** [plotMinElevation] and [plotMaxElevation] of [createElevationProfile]:
    the range of the elevations widened by a hundredth at both ends. *)
Definition plotElevations (elevations : list Q) : Q * Q :=
  let minElevation := Math_min elevations in
  let maxElevation := Math_max elevations in
  let elevationRange := (maxElevation - minElevation)%Q in
  let elevationPadding := (elevationRange * 0.01)%Q in
  ((minElevation - elevationPadding)%Q, (maxElevation + elevationPadding)%Q).

(** [this.paddingLeft + (d / totalDistance) * plotWidth]. *)
Definition xOf (cv : Canvas) (d totalDistance : Q) : option Q :=
  r ← jsDiv d totalDistance;
  Some (paddingLeft cv + r * plotWidth cv)%Q.

(** [this.canvasHeight - this.paddingBottom
     - ((e - minElevation) / (maxElevation - minElevation)) * plotHeight]. *)
Definition yOf (cv : Canvas) (e minElevation maxElevation : Q) : option Q :=
  r ← jsDiv (e - minElevation) (maxElevation - minElevation);
  Some (canvasHeight cv - paddingBottom cv - r * plotHeight cv)%Q.

(** ** Vocabulary of the statements *)

(** A track with the given elevation profile (positions do not matter to
    peak detection). *)
Definition profile (eles : list Q) : list Point :=
  (λ e, {| lat := 0; lon := 0; ele := e |}) <$> eles.

(** [k] is immediately followed in [l] by a key less than 5 km further. *)
Definition closeToNext (l : list Z) (k : Z) : Prop :=
  ∃ i k', l !! i = Some k ∧ l !! S i = Some k' ∧ (k' - k < COLLAPSE_KM)%Z.

(** What the sampling loop maintains when it is about to visit index [i]:
    both arrays start with 0, have the same length and ascend strictly,
    and every recorded index is below [i]. *)
Definition SamplerInv (i : nat) (st : Sampler) : Prop :=
  head (kmMarkers st) = Some 0%Z
  ∧ head (markerIndices st) = Some 0
  ∧ length (kmMarkers st) = length (markerIndices st)
  ∧ StronglySorted Z.lt (kmMarkers st)
  ∧ StronglySorted lt (markerIndices st)
  ∧ Forall (λ j, j < i) (markerIndices st).

(** The progress notifications of a run over [n] markers. *)
Definition progressEvents (progressCallback : bool) (first n total : nat)
    : list Event :=
  if progressCallback then (λ m, Progress m total) <$> seq first n else [].

(** The lookup threw, or its payload carries no elements. *)
Definition emptyLookup (r : Lookup) : Prop :=
  r = lookupThrows ∨ r = lookupJson None ∨ r = lookupJson (Some []).

(** A planar distance, in kilometres at 111 km per degree, to run the
    engine on concrete data: 0 between equal points, as [haversine] is. *)
Definition planarKm (lat1 lon1 lat2 lon2 : Q) : Q :=
  111 * (Qabs (lat2 - lat1) + Qabs (lon2 - lon1)).

(** Every key of [filtered] lies in a claimed block. *)
Definition Claimed (st : FilterState) : Prop :=
  ∀ km, is_Some (filtered st !! km) → blockOf km ∈ blockHas st.

(** Every key in [seen] comes from an entry whose type satisfies [T]. *)
Definition SeenTypes (T : LandmarkType → Prop) (st : FilterState) : Prop :=
  ∀ k, k ∈ seen st → ∃ e, k = entryKey e ∧ T (type e).

(** Every candidate of pass 3 is a town marker of its own block, and that
    block is unclaimed in [st]. *)
Definition Candidates (st : FilterState) (blockTowns : gmap Z TownCand) : Prop :=
  ∀ b c, blockTowns !! b = Some c →
    blockOf (cand_km c) = b ∧ type (cand_entry c) = town ∧ b ∉ blockHas st.

(** Everything the filter has recorded is backed by an accepted entry:
    [filtered] holds entries of [summary], every claimed block holds an
    accepted key, and every seen key is the key of an accepted entry. *)
Definition Backed (summary : gmap Z Entry) (st : FilterState) : Prop :=
  (∀ k e, filtered st !! k = Some e → summary !! k = Some e)
  ∧ (∀ b, b ∈ blockHas st → ∃ k, is_Some (filtered st !! k) ∧ blockOf k = b)
  ∧ (∀ key, key ∈ seen st → ∃ k e, filtered st !! k = Some e ∧ entryKey e = key).

(** A coordinate that is present and equal to 0. *)
Definition isZero (v : option Q) : Prop := ∃ z, v = Some z ∧ (z == 0)%Q.

(** ** Sample data *)

Definition lonePoint : Point := {| lat := 46; lon := 7; ele := 500 |}.

(** Three points 2 km apart along a meridian. *)
Definition shortTrack : list Point :=
  [ {| lat := 0; lon := 10; ele := 400 |};
    {| lat := 2 / 111; lon := 10; ele := 420 |};
    {| lat := 4 / 111; lon := 10; ele := 450 |} ].

(** A marker point just north of the equator, a pass on the equator 111 m
    south of it, and a river whose centre is the marker point itself. *)
Definition equatorPoint : Point := {| lat := 1 / 1000; lon := 10; ele := 2000 |}.

Definition equatorPass : Element :=
  {| el_lat := Some 0%Q; el_lon := Some 10%Q; center := None;
     tags := {| tag_mountain_pass := Some "yes"; tag_waterway := None;
                tag_place := None; tag_name := Some "Col";
                tag_population := None |} |}.

Definition equatorRiver : Element :=
  {| el_lat := None; el_lon := None;
     center := Some {| c_lat := Some (1 / 1000)%Q; c_lon := Some 10%Q |};
     tags := {| tag_mountain_pass := None; tag_waterway := Some "river";
                tag_place := None; tag_name := Some "Rio";
                tag_population := None |} |}.

(** A river carrying latitude 0, longitude 7 and a centre at (45, 8). *)
Definition mixedRiver : Element :=
  {| el_lat := Some 0%Q; el_lon := Some 7%Q;
     center := Some {| c_lat := Some 45%Q; c_lon := Some 8%Q |};
     tags := {| tag_mountain_pass := None; tag_waterway := Some "river";
                tag_place := None; tag_name := Some "Rio";
                tag_population := None |} |}.

Definition townElement (la lo : Q) (n population : string) : Element :=
  {| el_lat := Some la; el_lon := Some lo; center := None;
     tags := {| tag_mountain_pass := None; tag_waterway := None;
                tag_place := Some "town"; tag_name := Some n;
                tag_population := Some population |} |}.

(** Markers every 5 km; two towns of the same name, 10 km apart. *)
Definition fiveKmMarkers : list Z := [0; 5; 10; 15]%Z.

Definition twinTowns : list Element :=
  [ townElement (5 / 111) 10 "Neustadt" "3000";
    townElement (15 / 111) 10 "Neustadt" "12,000" ].

Definition twinSummary : gmap Z Entry :=
  {[ 5%Z := {| type := town; name := "Neustadt" |};
     15%Z := {| type := town; name := "Neustadt" |} ]}.

(** A pass and, 10 km on, a river of the same name. *)
Definition namesakeSummary : gmap Z Entry :=
  {[ 5%Z := {| type := pass; name := "Gotthard" |};
     15%Z := {| type := river; name := "Gotthard" |} ]}.

(** Four points 2 km apart along a meridian, climbing all the way, with a
    town at the second and at the third point; the first town's population
    tag holds no digit. *)
Definition valleyTrack : list Point :=
  [ {| lat := 0; lon := 10; ele := 400 |};
    {| lat := 2 / 111; lon := 10; ele := 420 |};
    {| lat := 4 / 111; lon := 10; ele := 450 |};
    {| lat := 6 / 111; lon := 10; ele := 500 |} ].

Definition valleyTowns : list Element :=
  [ townElement (2 / 111) 10 "Ayton" "unknown";
    townElement (4 / 111) 10 "Beeton" "5000" ].

(** ** Further vocabulary *)

(** What a nearest-feature search has established after the features [l]:
    either nothing usable lies within the threshold, or the feature held
    is the first one of [l] at the least distance. *)
Definition SearchInv (haversine : Q → Q → Q → Q → Q)
    (position : Element → option (Q * Q)) (lat0 lon0 : Q)
    (l : list Element) (acc : option Element * Q) : Prop :=
  match fst acc with
  | None =>
      snd acc = PROXIMITY_KM
      ∧ ∀ el a b, el ∈ l → position el = Some (a, b) →
          (PROXIMITY_KM <= haversine lat0 lon0 a b)%Q
  | Some el =>
      ∃ l1 l2 a b,
        l = l1 ++ el :: l2
        ∧ position el = Some (a, b)
        ∧ snd acc = haversine lat0 lon0 a b
        ∧ (haversine lat0 lon0 a b < PROXIMITY_KM)%Q
        ∧ (∀ el' a' b', el' ∈ l1 → position el' = Some (a', b') →
             (haversine lat0 lon0 a b < haversine lat0 lon0 a' b')%Q)
        ∧ (∀ el' a' b', el' ∈ l2 → position el' = Some (a', b') →
             (haversine lat0 lon0 a b <= haversine lat0 lon0 a' b')%Q)
  end.

(** No feature of [els] with a usable position is closer than the
    threshold to the point ([lat0], [lon0]). *)
Definition noneWithin (haversine : Q → Q → Q → Q → Q)
    (position : Element → option (Q * Q)) (lat0 lon0 : Q)
    (els : list Element) : Prop :=
  ∀ el a b, el ∈ els → position el = Some (a, b) →
    (PROXIMITY_KM <= haversine lat0 lon0 a b)%Q.

(** The markers of [st] against the cumulative distances [dists] of the
    route: each kilometre value is the rounded distance at the marker's
    point index, and that distance is at least 1 except at the start. *)
Definition MarksAt (dists : list (option Q)) (st : Sampler) : Prop :=
  ∀ j km idx, emit st !! j = Some (km, idx) →
    ∃ d, dists !! idx = Some (Some d) ∧ km = Math_round d
         ∧ (0 < idx → (1 <= d)%Q).

(** Every accepted entry is the classified entry of one of the markers
    and carries a proper name. *)
Definition Sound (kms : list Z) (summary : gmap Z Entry) (f : gmap Z Entry)
    : Prop :=
  ∀ k e, f !! k = Some e →
    summary !! k = Some e ∧ k ∈ kms ∧ isUnnamed (name e) = false.

(** No two keys lie in the same 10 km block. *)
Definition OnePerBlock (f : gmap Z Entry) : Prop :=
  ∀ k1 k2, is_Some (f !! k1) → is_Some (f !! k2) →
    blockOf k1 = blockOf k2 → k1 = k2.

(** What the three passes maintain. *)
Definition Good (kms : list Z) (summary : gmap Z Entry) (st : FilterState)
    : Prop :=
  Sound kms summary (filtered st) ∧ Claimed st ∧ OnePerBlock (filtered st).

(** Every candidate of pass 3 is a properly named classified marker of
    its block. *)
Definition SoundCandidates (kms : list Z) (summary : gmap Z Entry)
    (blockTowns : gmap Z TownCand) : Prop :=
  ∀ b c, blockTowns !! b = Some c →
    summary !! cand_km c = Some (cand_entry c)
    ∧ cand_km c ∈ kms
    ∧ isUnnamed (name (cand_entry c)) = false
    ∧ blockOf (cand_km c) = b.

(** Two points 111 m apart. *)
Definition strollTrack : list Point :=
  [ {| lat := 46; lon := 7; ele := 500 |};
    {| lat := 46 + 1 / 1000; lon := 7; ele := 501 |} ].

(** The marker at [k] is classified as a pass with a proper name. *)
Definition namedPass (summary : gmap Z Entry) (k : Z) : Prop :=
  ∃ e, summary !! k = Some e ∧ type e = pass ∧ isUnnamed (name e) = false.

(** Every claimed block holds a properly named pass among the markers
    [visited]. *)
Definition PassBlocks (summary : gmap Z Entry) (visited : list Z)
    (st : FilterState) : Prop :=
  ∀ b, b ∈ blockHas st →
    ∃ k, k ∈ visited ∧ blockOf k = b ∧ namedPass summary k.

(** A short ride: four points with time stamps 0 s, 10 s, 70 s and 80 s. *)
Definition rideTrack : list TrackPoint :=
  [ {| tp_lat := 46; tp_lon := 7; tp_ele := Some 500%Q; tp_time := 0 |};
    {| tp_lat := 46 + 1 / 1000; tp_lon := 7; tp_ele := Some 512%Q;
       tp_time := 10000 |};
    {| tp_lat := 46 + 1 / 1000; tp_lon := 7; tp_ele := None; tp_time := 70000 |};
    {| tp_lat := 46 + 2 / 1000; tp_lon := 7; tp_ele := Some 507%Q;
       tp_time := 80000 |} ].

(** * Properties *)

(** ** Numbers *)

Lemma numLt_lt (x y : Q) : numLt x y = true ↔ (x < y)%Q.
Proof.
  unfold numLt. rewrite negb_true_iff, <- not_true_iff_false, Qle_bool_iff.
  split; [apply Qnot_le_lt | apply Qlt_not_le].
Qed.

Lemma numGe_le (x y : Q) : numGe x y = true ↔ (y <= x)%Q.
Proof. apply Qle_bool_iff. Qed.

Lemma truthyNum_false (x : Q) : truthyNum x = false ↔ (x == 0)%Q.
Proof. unfold truthyNum. rewrite negb_false_iff. apply Qeq_bool_iff. Qed.

(** ** Peak detection *)

Lemma higher_true (points : list Point) (j : nat) (e : Q) :
  higher points j e = true ↔ ∃ q, points !! j = Some q ∧ (e < ele q)%Q.
Proof.
  unfold higher. destruct (points !! j) as [q|].
  - rewrite numLt_lt. split; [eauto | intros (q' & [= <-] & H); done].
  - split; [done | intros (q & [=] & _)].
Qed.

(** The loop accepts exactly when no offset it visits shows a higher
    neighbour on either side. *)
Lemma isPeakFrom_true (points : list Point) (idx : nat) (e : Q) (fuel off : nat) :
  isPeakFrom points idx e off fuel = true ↔
  ∀ k q, off ≤ k < off + fuel →
    (k ≤ idx ∧ points !! (idx - k) = Some q) ∨ points !! (idx + k) = Some q →
    ¬ (e < ele q)%Q.
Proof.
  revert off. induction fuel as [|fuel IH]; intros off; simpl.
  - split; [intros _ k q Hk; lia | done].
  - destruct ((off <=? idx)%nat && higher points (idx - off) e) eqn:Hl.
    { apply andb_true_iff in Hl as [Hle Hh]. apply Nat.leb_le in Hle.
      apply higher_true in Hh as (q & Hq & Hlt).
      split; [done | intros H]. exfalso. apply (H off q); [lia | eauto | done]. }
    destruct ((idx + off <? length points)%nat && higher points (idx + off) e) eqn:Hr.
    { apply andb_true_iff in Hr as [_ Hh].
      apply higher_true in Hh as (q & Hq & Hlt).
      split; [done | intros H]. exfalso. apply (H off q); [lia | eauto | done]. }
    rewrite IH. split; intros H k q Hk Hq.
    + destruct (decide (k = off)) as [->|Hne]; [|apply (H k q); [lia | done]].
      intros Hlt. destruct Hq as [[Hle Hq]|Hq].
      * apply andb_false_iff in Hl as [Hl|Hl].
        -- apply Nat.leb_gt in Hl. lia.
        -- apply not_true_iff_false in Hl. apply Hl, higher_true. eauto.
      * apply andb_false_iff in Hr as [Hr|Hr].
        -- apply Nat.ltb_ge in Hr. apply lookup_lt_Some in Hq. lia.
        -- apply not_true_iff_false in Hr. apply Hr, higher_true. eauto.
    + apply (H k q); [lia | done].
Qed.

(** C7. A track point at index [i] is flagged a peak if and only if no
    existing neighbour at offset 1 or 2, on either side, has strictly
    greater elevation; the centre of [100,150,200,150,100] and the last
    index of [100,150,200,250,300] are peaks. *)
Theorem isPeak_iff_no_higher_neighbour :
  (∀ (points : list Point) (i : nat) (p : Point),
     points !! i = Some p →
     (isPeak points i = Some true ↔
      ∀ off q, off = 1 ∨ off = 2 →
        (off ≤ i ∧ points !! (i - off) = Some q) ∨ points !! (i + off) = Some q →
        ¬ (ele p < ele q)%Q))
  ∧ isPeak (profile [100; 150; 200; 150; 100]%Q) 2 = Some true
  ∧ isPeak (profile [100; 150; 200; 250; 300]%Q) 4 = Some true.
Proof.
  split; [|split; reflexivity].
  intros points i p Hp. unfold isPeak. rewrite Hp.
  cbn [mbind option_bind].
  assert (∀ b : bool, Some b = Some true ↔ b = true) as ->
    by (intros b; split; [intros [= ->] | intros ->]; done).
  rewrite isPeakFrom_true. unfold PEAK_WINDOW.
  split; intros H k q Hk; apply H; lia.
Qed.

Lemma isPeak_iff_no_higher_neighbour_witness :
  profile [100; 150; 200; 150; 100]%Q !! 2 = Some {| lat := 0; lon := 0; ele := 200 |}
  ∧ (isPeak (profile [100; 150; 200; 150; 100]%Q) 2 = Some true ↔
     ∀ off q, off = 1 ∨ off = 2 →
       (off ≤ 2 ∧ profile [100; 150; 200; 150; 100]%Q !! (2 - off) = Some q)
       ∨ profile [100; 150; 200; 150; 100]%Q !! (2 + off) = Some q →
       ¬ (200 < ele q)%Q).
Proof.
  split; [reflexivity|].
  exact (proj1 isPeak_iff_no_higher_neighbour
           (profile [100; 150; 200; 150; 100]%Q) 2
           {| lat := 0; lon := 0; ele := 200 |} eq_refl).
Defined.

(** ** Sorted key lists *)

Lemma StronglySorted_lookup_lt {A} (R : relation A) (l : list A) (i j : nat) (a b : A) :
  StronglySorted R l → l !! i = Some a → l !! j = Some b → i < j → R a b.
Proof.
  intros Hs. revert i j. induction Hs as [|x l Hs IH Hall]; intros i j Hi Hj Hij.
  - done.
  - destruct j as [|j]; [lia|]. destruct i as [|i]; simpl in *.
    + injection Hi as ->. rewrite Forall_forall in Hall.
      apply Hall. by eapply list_elem_of_lookup_2.
    + apply (IH i j); [done | done | lia].
Qed.

Lemma StronglySorted_le_NoDup_lt (l : list Z) :
  StronglySorted Z.le l → NoDup l → StronglySorted Z.lt l.
Proof.
  induction 1 as [|x l Hs IH Hall]; intros Hnd; [constructor|].
  apply NoDup_cons in Hnd as [Hx Hnd]. constructor; [by apply IH|].
  rewrite Forall_forall in *. intros y Hy.
  specialize (Hall y Hy). assert (x ≠ y) by (intros ->; done). lia.
Qed.

Lemma sortedKeys_sorted {V} (m : gmap Z V) : StronglySorted Z.lt (sortedKeys m).
Proof.
  unfold sortedKeys. apply StronglySorted_le_NoDup_lt.
  - apply (StronglySorted_merge_sort Z.le).
  - rewrite merge_sort_Permutation. apply NoDup_elements.
Qed.

Lemma elem_of_sortedKeys {V} (m : gmap Z V) (k : Z) :
  k ∈ sortedKeys m ↔ is_Some (m !! k).
Proof.
  unfold sortedKeys. by rewrite merge_sort_Permutation, elem_of_elements, elem_of_dom.
Qed.

Lemma sortedKeys_empty {V} : sortedKeys (∅ : gmap Z V) = [].
Proof.
  apply elem_of_nil_inv. intros k Hk.
  apply elem_of_sortedKeys in Hk as [v Hv]. by rewrite lookup_empty in Hv.
Qed.

(** In a strictly ascending list, a key with a larger key after it has an
    immediate successor, which is at most that larger key. *)
Lemma sorted_successor (l : list Z) (a b : Z) :
  StronglySorted Z.lt l → a ∈ l → b ∈ l → (a < b)%Z →
  ∃ i a', l !! i = Some a ∧ l !! S i = Some a' ∧ (a' ≤ b)%Z.
Proof.
  induction 1 as [|x l Hs IH Hall]; intros Ha Hb Hab; [by apply elem_of_nil in Ha|].
  rewrite Forall_forall in Hall.
  assert (b ∈ l) as Hbl.
  { apply elem_of_cons in Hb as [->|Hb]; [|done].
    apply elem_of_cons in Ha as [->|Ha]; [lia|]. specialize (Hall a Ha). lia. }
  apply elem_of_cons in Ha as [->|Ha].
  - destruct Hs as [|y l' Hs' Hall']; [by apply elem_of_nil in Hbl|].
    exists 0, y. split_and!; [done | done |].
    apply elem_of_cons in Hbl as [->|Hbl]; [lia|].
    rewrite Forall_forall in Hall'. specialize (Hall' b Hbl). lia.
  - destruct (IH Ha Hbl Hab) as (i & a' & Hi & Hi' & Hle).
    exists (S i), a'. done.
Qed.

(** ** The proximity collapse *)

Lemma closeToNext_cons (prev x : Z) (r : list Z) (k : Z) :
  closeToNext (prev :: x :: r) k ↔
  (k = prev ∧ (x - prev < COLLAPSE_KM)%Z) ∨ closeToNext (x :: r) k.
Proof.
  unfold closeToNext. split.
  - intros (i & k' & Hi & Hi' & Hlt). destruct i as [|i]; simpl in *.
    + left. by simplify_eq.
    + right. eauto.
  - intros [[-> Hlt] | (i & k' & Hi & Hi' & Hlt)].
    + exists 0, x. done.
    + exists (S i), k'. done.
Qed.

Lemma elem_of_markClose (rest : list Z) (prev : Z) (acc : list Z) (k : Z) :
  k ∈ markClose prev rest acc ↔ k ∈ acc ∨ closeToNext (prev :: rest) k.
Proof.
  revert prev acc. induction rest as [|x r IH]; intros prev acc; simpl.
  - split; [by left|]. intros [H | (i & k' & Hi & Hi' & _)]; [done|].
    by destruct i.
  - rewrite IH, closeToNext_cons. case_match eqn:Hc.
    + apply Z.ltb_lt in Hc. rewrite elem_of_app, list_elem_of_singleton. tauto.
    + apply Z.ltb_ge in Hc. split; [tauto|].
      intros [H | [[-> Hlt] | H]]; [tauto | lia | tauto].
Qed.

Lemma elem_of_marked (l : list Z) (k : Z) : k ∈ marked l ↔ closeToNext l k.
Proof.
  destruct l as [|x r]; simpl.
  - split; [by intros ?%elem_of_nil|]. by intros ([|] & ? & ? & _).
  - rewrite elem_of_markClose. split; [|by right].
    intros [H|H]; [by apply elem_of_nil in H | done].
Qed.

Lemma lookup_fold_delete {V} (ks : list Z) (f : gmap Z V) (k : Z) :
  fold_left (λ f km, delete km f) ks f !! k
  = if decide (k ∈ ks) then None else f !! k.
Proof.
  revert f. induction ks as [|x ks IH]; intros f; cbn [fold_left].
  - by rewrite decide_False by apply not_elem_of_nil.
  - rewrite IH. destruct (decide (k ∈ ks)) as [Hin|Hnin].
    + by rewrite decide_True by (by right).
    + destruct (decide (k = x)) as [->|Hne].
      * rewrite decide_True by (by left). apply lookup_delete_eq.
      * rewrite decide_False by (by intros [?|?]%elem_of_cons).
        by apply lookup_delete_ne.
Qed.

Lemma collapse_lookup (f : gmap Z Entry) (k : Z) :
  collapse f !! k
  = if decide (k ∈ marked (sortedKeys f)) then None else f !! k.
Proof. apply lookup_fold_delete. Qed.

(** Any two keys that survive the collapse are at least 5 km apart. *)
Lemma collapse_keys_apart (f : gmap Z Entry) (a b : Z) :
  is_Some (collapse f !! a) → is_Some (collapse f !! b) → (a < b)%Z →
  (COLLAPSE_KM ≤ b - a)%Z.
Proof.
  rewrite !collapse_lookup. intros Ha Hb Hab.
  destruct (decide (a ∈ marked _)) as [|Hna]; [by destruct Ha|].
  destruct (decide (b ∈ marked _)) as [|_]; [by destruct Hb|].
  apply elem_of_sortedKeys in Ha, Hb.
  destruct (sorted_successor _ a b (sortedKeys_sorted f) Ha Hb Hab)
    as (i & a' & Hi & Hi' & Hle).
  destruct (decide (a' - a < COLLAPSE_KM)%Z) as [Hclose|]; [|lia].
  exfalso. apply Hna, elem_of_marked. by exists i, a'.
Qed.

(** C5. The accepted keys are taken in ascending order; a key is removed
    exactly when the key that follows it in that order is less than 5 km
    further (marks are read off the original order, the later key of a
    pair is never removed on account of that pair); hence consecutive keys
    of the result are at least 5 km apart, and of the keys 12, 15, 40 the
    key 12 goes while 15 stays. *)
Theorem collapse_removes_earlier_of_close_pair :
  (∀ filtered : gmap Z Entry,
     let kms := sortedKeys filtered in
     StronglySorted Z.lt kms
     ∧ (∀ k, k ∈ kms ↔ is_Some (filtered !! k))
     ∧ (∀ k, closeToNext kms k → collapse filtered !! k = None)
     ∧ (∀ k, ¬ closeToNext kms k → collapse filtered !! k = filtered !! k)
     ∧ (∀ i a b,
          sortedKeys (collapse filtered) !! i = Some a →
          sortedKeys (collapse filtered) !! S i = Some b →
          (5 ≤ b - a)%Z))
  ∧ (∀ e12 e15 e40 : Entry,
       collapse {[ 12%Z := e12; 15%Z := e15; 40%Z := e40 ]}
       = {[ 15%Z := e15; 40%Z := e40 ]}).
Proof.
  split.
  - intros f kms. split_and!.
    + apply sortedKeys_sorted.
    + apply elem_of_sortedKeys.
    + intros k Hk. rewrite collapse_lookup.
      by rewrite decide_True by (by apply elem_of_marked).
    + intros k Hk. rewrite collapse_lookup.
      by rewrite decide_False by (by rewrite elem_of_marked).
    + intros i a b Hi Hi'.
      apply (collapse_keys_apart f).
      * apply elem_of_sortedKeys. by eapply list_elem_of_lookup_2.
      * apply elem_of_sortedKeys. by eapply list_elem_of_lookup_2.
      * apply (StronglySorted_lookup_lt Z.lt _ i (S i) a b
                 (sortedKeys_sorted (collapse f))); [done | done | lia].
  - intros e12 e15 e40. apply map_eq. intros k.
    rewrite collapse_lookup.
    replace (sortedKeys _) with [12; 15; 40]%Z by (vm_compute; reflexivity).
    destruct (decide (k = 12%Z)) as [->|?]; [reflexivity|].
    rewrite decide_False.
    + by rewrite lookup_insert_ne.
    + intros H. apply elem_of_marked in H as (i & k' & Hi & Hi' & Hlt).
      destruct i as [|[|[|i]]]; simplify_eq/=; unfold COLLAPSE_KM in *; lia.
Qed.

Lemma collapse_removes_earlier_of_close_pair_witness :
  closeToNext (sortedKeys ({[ 12%Z := {| type := pass; name := "Col" |};
                              15%Z := {| type := river; name := "Rio" |} ]}
                           : gmap Z Entry)) 12
  ∧ collapse {[ 12%Z := {| type := pass; name := "Col" |};
                15%Z := {| type := river; name := "Rio" |} ]} !! 12%Z = None.
Proof.
  assert (closeToNext (sortedKeys ({[ 12%Z := {| type := pass; name := "Col" |};
                                      15%Z := {| type := river; name := "Rio" |} ]}
                                   : gmap Z Entry)) 12) as H.
  { exists 0, 15%Z. split_and!; [vm_compute; reflexivity .. | reflexivity]. }
  split; [exact H|].
  exact (proj1 (proj2 (proj2 (proj1 collapse_removes_earlier_of_close_pair _))) 12%Z H).
Defined.

(** ** Distance sampler *)

Lemma Math_round_above (k : Z) (x : Q) :
  (inject_Z k + 1 <= x)%Q → (k < Math_round x)%Z.
Proof.
  intros H. unfold Math_round.
  assert (k + 1 ≤ Qfloor (x + (1 # 2)))%Z; [|lia].
  rewrite <- (Qfloor_Z (k + 1)). apply Qfloor_resp_le.
  rewrite inject_Z_plus. change (inject_Z 1) with 1%Q. lra.
Qed.

Lemma sorted_le_last (l : list Z) (x y : Z) :
  StronglySorted Z.lt l → x ∈ l → last l = Some y → (x ≤ y)%Z.
Proof.
  intros Hs Hx [l' ->]%last_Some.
  apply elem_of_app in Hx as [Hx|Hx%list_elem_of_singleton]; [|lia].
  assert (x < y)%Z; [|lia].
  eapply (StronglySorted_app_1_elem_of Z.lt); [done | done | by left].
Qed.

Lemma StronglySorted_snoc {A} (R : relation A) (l : list A) (x : A) :
  StronglySorted R l → Forall (λ y, R y x) l → StronglySorted R (l ++ [x]).
Proof.
  intros Hs Hall. apply StronglySorted_app_2; [|done|repeat constructor].
  intros x1 x2 Hx1 ->%list_elem_of_singleton.
  rewrite Forall_forall in Hall. by apply Hall.
Qed.

Lemma head_snoc {A} (l : list A) (x y : A) :
  head l = Some x → head (l ++ [y]) = Some x.
Proof. by destruct l. Qed.

Lemma SamplerInv_init : SamplerInv 1 initSampler.
Proof.
  unfold SamplerInv, initSampler; simpl.
  split_and!; try done; repeat constructor.
Qed.

Section SamplerFacts.

Variable haversine : Q → Q → Q → Q → Q.

Lemma sampleStep_inv (prev p : Point) (i : nat) (st : Sampler) :
  SamplerInv i st → SamplerInv (S i) (sampleStep haversine prev p i st).
Proof.
  intros (Hk0 & Hi0 & Hlen & Hks & His & Hlt). unfold sampleStep.
  assert (Forall (λ j, j < S i) (markerIndices st)) as Hlt'
    by (eapply Forall_impl; [done | simpl; lia]).
  destruct (numGe _ _) eqn:Hge; unfold SamplerInv; simpl; [|done].
  apply numGe_le in Hge. unfold SAMPLE_EVERY_KM in Hge.
  apply Math_round_above in Hge.
  split_and!.
  - by apply head_snoc.
  - by apply head_snoc.
  - by rewrite !length_app, Hlen.
  - apply StronglySorted_snoc; [done|].
    apply Forall_forall. intros x Hx.
    destruct (last (kmMarkers st)) as [y|] eqn:Hlast.
    + pose proof (sorted_le_last _ x y Hks Hx Hlast). simpl in Hge. lia.
    + apply last_None in Hlast. rewrite Hlast in Hx. by apply elem_of_nil in Hx.
  - by apply StronglySorted_snoc.
  - apply Forall_app. split; [done|]. repeat constructor.
Qed.

Lemma sampleLoop_inv (rest : list Point) (prev : Point) (i : nat) (st : Sampler) :
  SamplerInv i st →
  SamplerInv (i + length rest) (sampleLoop haversine prev rest i st).
Proof.
  revert prev i st. induction rest as [|p rest IH]; intros prev i st Hinv; simpl.
  - by rewrite Nat.add_0_r.
  - replace (i + S (length rest)) with (S i + length rest) by lia.
    by apply IH, sampleStep_inv.
Qed.

(** For a non-empty track, every marker index is an index of the track. *)
Lemma sampleMarkers_inv (points : list Point) :
  points ≠ [] → SamplerInv (length points) (sampleMarkers haversine points).
Proof.
  destruct points as [|p0 rest]; [done|]. intros _. simpl.
  apply (sampleLoop_inv rest p0 1), SamplerInv_init.
Qed.

(** The kilometre values are never negative, and so neither are the
    block numbers: the keys of every object of the filter enumerate in
    ascending order. *)
Lemma kmMarkers_nonneg (points : list Point) :
  Forall (Z.le 0) (kmMarkers (sampleMarkers haversine points)).
Proof.
  assert (∃ i, SamplerInv i (sampleMarkers haversine points))
    as (i & Hk0 & _ & _ & Hks & _).
  { destruct points as [|p0 rest].
    - exists 1. apply SamplerInv_init.
    - exists (length (p0 :: rest)). by apply sampleMarkers_inv. }
  destruct (kmMarkers _) as [|k ks]; [constructor|].
  simpl in Hk0. injection Hk0 as ->.
  apply StronglySorted_inv in Hks as [_ Hall].
  constructor; [lia|]. eapply Forall_impl; [done|]. simpl. lia.
Qed.

(** C9. The first marker is [{cumulativeKm: 0, pointIndex: 0}], and along
    the marker list both the rounded kilometre values and the point
    indices increase strictly; this holds for every track, those with at
    least 2 points included. *)
Theorem sampler_starts_at_zero_and_increases (points : list Point) :
  head (emit (sampleMarkers haversine points)) = Some (0%Z, 0)
  ∧ length (kmMarkers (sampleMarkers haversine points))
    = length (markerIndices (sampleMarkers haversine points))
  ∧ StronglySorted Z.lt (kmMarkers (sampleMarkers haversine points))
  ∧ StronglySorted lt (markerIndices (sampleMarkers haversine points)).
Proof.
  assert (∃ i, SamplerInv i (sampleMarkers haversine points))
    as (i & Hk0 & Hi0 & Hlen & Hks & His & _).
  { destruct points as [|p0 rest].
    - exists 1. apply SamplerInv_init.
    - exists (length (p0 :: rest)). by apply sampleMarkers_inv. }
  split_and!; try done. unfold emit.
  destruct (kmMarkers _) as [|k ks]; [done|].
  destruct (markerIndices _) as [|j js]; [done|].
  simpl in *. by simplify_eq.
Qed.

End SamplerFacts.

(** ** The engine as a whole *)

Lemma filter_fold_id {S} (step : S → Z → S) (kms : list Z) (st : S) :
  (∀ st km, step st km = st) → fold_left step kms st = st.
Proof.
  intros Hstep. revert st. induction kms as [|km kms IH]; intros st; simpl; [done|].
  by rewrite Hstep.
Qed.

(** Nothing classified, nothing kept. *)
Lemma filterStage_empty (kms : list Z) (towns : list Element) :
  filterStage kms ∅ towns = ∅.
Proof.
  unfold filterStage, pass3, acceptTowns, collectTowns, pass2, pass1.
  rewrite (filter_fold_id (pass1Step ∅))
    by (intros; unfold pass1Step; by rewrite lookup_empty).
  rewrite (filter_fold_id (pass2Step ∅))
    by (intros; unfold pass2Step; by rewrite lookup_empty).
  rewrite (filter_fold_id (collectStep ∅ towns initFilter))
    by (intros; unfold collectStep; by rewrite lookup_empty).
  rewrite (@sortedKeys_empty TownCand). simpl.
  unfold collapse. by rewrite (@sortedKeys_empty Entry).
Qed.

Lemma boundingBox_is_Some (points : list Point) (ids : list nat) :
  is_Some (boundingBox points ids) ↔ Forall (λ j, is_Some (points !! j)) ids.
Proof.
  unfold boundingBox.
  transitivity (is_Some (mapM (λ i, points !! i) ids)).
  - destruct (mapM _ ids); simpl; split; intros [? ?]; by eauto.
  - apply (mapM_is_Some (λ i, points !! i)).
Qed.

Lemma progressEvents_cons (pcb : bool) (trace : list Event) (m n total : nat) :
  (if pcb then trace ++ [Progress (m + 1) total] else trace)
    ++ progressEvents pcb (S (S m)) n total
  = trace ++ progressEvents pcb (S m) (S n) total.
Proof.
  unfold progressEvents. destruct pcb; [|done].
  rewrite <- app_assoc. simpl. by rewrite Nat.add_1_r.
Qed.

Section EngineFacts.

Variable haversine : Q → Q → Q → Q → Q.

Lemma classifyMarker_is_Some (points : list Point) (fs : Features) (idx : nat) :
  is_Some (points !! idx) → is_Some (classifyMarker haversine points fs idx).
Proof.
  intros [p Hp]. unfold classifyMarker, isPeak. rewrite Hp. cbn [mbind option_bind].
  repeat case_match; eauto.
Qed.

Lemma classifyMarker_noFeatures (points : list Point) (idx : nat) :
  is_Some (points !! idx) →
  classifyMarker haversine points noFeatures idx = Some None.
Proof. intros [p Hp]. unfold classifyMarker. by rewrite Hp. Qed.

(** With every marker index in range the loop runs through, notifying
    progress once per marker; without features it records nothing. *)
Lemma classifyAll_valid (points : list Point) (fs : Features) (pcb : bool)
    (total : nat) (markers : list (Z * nat)) (m : nat)
    (summary : gmap Z Entry) (trace : list Event) :
  Forall (λ mk, is_Some (points !! mk.2)) markers →
  ∃ summary',
    classifyAll haversine points fs pcb total markers m summary trace
    = inr (summary', trace ++ progressEvents pcb (S m) (length markers) total)
    ∧ (fs = noFeatures → summary' = summary).
Proof.
  revert m summary trace.
  induction markers as [|[km idx] rest IH]; intros m summary trace Hall.
  - exists summary. split; [|done]. unfold progressEvents. simpl.
    destruct pcb; by rewrite ?app_nil_r.
  - apply Forall_cons in Hall as [Hidx Hall]. simpl in Hidx.
    cbn [classifyAll].
    destruct (classifyMarker_is_Some points fs idx Hidx) as [found Hfound].
    rewrite Hfound.
    edestruct (IH (S m)) as (summary' & Heq & Hno); [done|].
    exists summary'. split.
    + rewrite Heq. cbn [length]. by rewrite progressEvents_cons.
    + intros ->. rewrite Hno by done.
      rewrite classifyMarker_noFeatures in Hfound by done. by simplify_eq.
Qed.

Lemma emit_valid (points : list Point) :
  points ≠ [] →
  Forall (λ mk, is_Some (points !! mk.2)) (emit (sampleMarkers haversine points))
  ∧ length (emit (sampleMarkers haversine points))
    = length (kmMarkers (sampleMarkers haversine points)).
Proof.
  intros Hne.
  destruct (sampleMarkers_inv haversine points Hne) as (_ & _ & Hlen & _ & _ & Hlt).
  unfold emit. split.
  - apply Forall_forall. intros [km idx] Hin. simpl.
    apply elem_of_zip_r in Hin. rewrite Forall_forall in Hlt.
    apply lookup_lt_is_Some. by apply Hlt.
  - rewrite length_zip_with. lia.
Qed.

(** A non-empty track is always processed to the end: one progress
    notification per marker, then the completion callback. *)
Lemma engine_completes (lookup : BBox → Lookup) (points : list Point)
    (pcb dcb : bool) :
  points ≠ [] →
  ∃ bbox result,
    boundingBox points (markerIndices (sampleMarkers haversine points)) = Some bbox
    ∧ (featuresOf (lookup bbox) = noFeatures → result = ∅)
    ∧ analyzeGpxRouteWithProgress haversine lookup points pcb dcb
      = Completed
          (progressEvents pcb 1 (length (kmMarkers (sampleMarkers haversine points)))
             (length (kmMarkers (sampleMarkers haversine points)))
           ++ (if dcb then [Done result] else [])).
Proof.
  intros Hne. unfold analyzeGpxRouteWithProgress.
  destruct (emit_valid points Hne) as [Hvalid Hlen].
  destruct (sampleMarkers_inv haversine points Hne) as (_ & _ & _ & _ & _ & Hlt).
  destruct (proj2 (boundingBox_is_Some points
                     (markerIndices (sampleMarkers haversine points))))
    as [bbox Hbbox].
  { eapply Forall_impl; [exact Hlt|]. intros j Hj. by apply lookup_lt_is_Some. }
  rewrite Hbbox.
  destruct (classifyAll_valid points (featuresOf (lookup bbox)) pcb
              (length (kmMarkers (sampleMarkers haversine points)))
              _ 0 ∅ [] Hvalid) as (summary & Heq & Hno).
  rewrite Heq, Hlen. simpl.
  eexists bbox, _. split_and!; [done| |].
  2:{ destruct dcb; [done|]. by rewrite app_nil_r. }
  intros Hfs. rewrite (Hno Hfs). apply filterStage_empty.
Qed.

(** C8. When the lookup throws or its payload carries no elements, the
    three feature collections are empty, no marker gets an entry, and the
    run completes with the progress notifications followed by exactly one
    completion call, which delivers the empty result. *)
Theorem failed_lookup_completes_once (lookup : BBox → Lookup)
    (points : list Point) (pcb : bool) (bbox : BBox) :
  boundingBox points (markerIndices (sampleMarkers haversine points)) = Some bbox →
  emptyLookup (lookup bbox) →
  featuresOf (lookup bbox) = noFeatures
  ∧ (∀ idx, idx ∈ markerIndices (sampleMarkers haversine points) →
       classifyMarker haversine points (featuresOf (lookup bbox)) idx = Some None)
  ∧ analyzeGpxRouteWithProgress haversine lookup points pcb true
    = Completed
        (progressEvents pcb 1 (length (kmMarkers (sampleMarkers haversine points)))
           (length (kmMarkers (sampleMarkers haversine points)))
         ++ [Done ∅]).
Proof.
  intros Hbbox Hempty.
  assert (featuresOf (lookup bbox) = noFeatures) as Hfs
    by (destruct Hempty as [-> | [-> | ->]]; reflexivity).
  assert (Forall (λ j, is_Some (points !! j))
            (markerIndices (sampleMarkers haversine points))) as Hvalid
    by (apply boundingBox_is_Some; eauto).
  split_and!; [done | |].
  - intros idx Hidx. rewrite Hfs. apply classifyMarker_noFeatures.
    rewrite Forall_forall in Hvalid. by apply Hvalid.
  - assert (points ≠ []) as Hne.
    { intros ->. simpl in Hvalid. apply Forall_cons in Hvalid as [[? [=]] _]. }
    destruct (engine_completes lookup points pcb true Hne)
      as (bbox' & result & Hbbox' & Hres & ->).
    rewrite Hbbox in Hbbox'. injection Hbbox' as <-.
    by rewrite (Hres Hfs).
Qed.

End EngineFacts.

Lemma failed_lookup_completes_once_witness :
  is_Some (boundingBox shortTrack (markerIndices (sampleMarkers planarKm shortTrack)))
  ∧ emptyLookup lookupThrows
  ∧ analyzeGpxRouteWithProgress planarKm (λ _, lookupThrows) shortTrack true true
    = Completed [Progress 1 3; Progress 2 3; Progress 3 3; Done ∅].
Proof.
  assert (is_Some (boundingBox shortTrack
                     (markerIndices (sampleMarkers planarKm shortTrack))))
    as Hsome by (vm_compute; eauto).
  assert (emptyLookup lookupThrows) as Hempty by (by left).
  split_and!; [done | done |].
  destruct Hsome as [bbox Hbbox].
  exact (proj2 (proj2 (failed_lookup_completes_once planarKm (λ _, lookupThrows)
                         shortTrack true bbox Hbbox Hempty))).
Defined.

(** ** Input size *)

(** C1, as the code has it.  The engine checks no input size: the empty
    track fails with a TypeError while the bounding box is computed, before
    the lookup and before any callback; with a lookup that fails or delivers
    a well-formed payload (the lookups of [Lookup]), a one-point track is
    processed to the end (one marker, progress 1 of 1, the completion call)
    and no non-empty track fails.  A payload that is not well formed can
    still raise a TypeError behind the [try]/[catch]; nothing is said about
    it.  The check for fewer than 2 track points belongs to calculateStats,
    which throws exactly then. *)
Theorem engine_has_no_input_size_check :
  (∀ haversine lookup pcb dcb,
     analyzeGpxRouteWithProgress haversine lookup [] pcb dcb = Raised TypeError [])
  ∧ (∀ haversine lookup p pcb dcb, ∃ result,
       analyzeGpxRouteWithProgress haversine lookup [p] pcb dcb
       = Completed (progressEvents pcb 1 1 1 ++ (if dcb then [Done result] else [])))
  ∧ (∀ haversine lookup points pcb dcb,
       points ≠ [] →
       ∃ trace,
         analyzeGpxRouteWithProgress haversine lookup points pcb dcb = Completed trace)
  ∧ (∀ (TrkPt Stats : Type) (compute : list TrkPt → Stats) (trkpts : list TrkPt),
       calculateStats compute trkpts = inl NotEnoughTrackPoints ↔ length trkpts < 2).
Proof.
  split_and!.
  - reflexivity.
  - intros haversine lookup p pcb dcb.
    destruct (engine_completes haversine lookup [p] pcb dcb)
      as (_ & result & _ & _ & Heq); [done|].
    by exists result.
  - intros haversine lookup points pcb dcb Hne.
    destruct (engine_completes haversine lookup points pcb dcb Hne)
      as (_ & result & _ & _ & Heq).
    by eexists.
  - intros TrkPt Stats compute trkpts. unfold calculateStats.
    destruct (length trkpts <? 2)%nat eqn:Hlt.
    + apply Nat.ltb_lt in Hlt. done.
    + apply Nat.ltb_ge in Hlt. split; [done | lia].
Qed.

Lemma engine_has_no_input_size_check_witness :
  shortTrack ≠ []
  ∧ ∃ trace,
      analyzeGpxRouteWithProgress planarKm (λ _, lookupThrows) shortTrack true true
      = Completed trace.
Proof.
  assert (shortTrack ≠ []) as Hne by done.
  split; [exact Hne|].
  exact (proj1 (proj2 (proj2 engine_has_no_input_size_check))
           planarKm (λ _, lookupThrows) shortTrack true true Hne).
Defined.

(** A track of one point, which is fewer than 2, raises nothing: its
    marker is classified, and both callbacks fire. *)
Lemma one_point_track_is_processed :
  length [lonePoint] < 2
  ∧ analyzeGpxRouteWithProgress planarKm (λ _, lookupThrows) [lonePoint] true true
    = Completed [Progress 1 1; Done ∅].
Proof. split; [simpl; lia | vm_compute; reflexivity]. Qed.

(** ** Nearest-feature search and precedence *)

Lemma usable_Some (rlat rlon : option Q) (a b : Q) :
  rlat = Some a → rlon = Some b → ¬ (a == 0)%Q → ¬ (b == 0)%Q →
  usable rlat rlon = Some (a, b).
Proof.
  intros -> -> Ha Hb. unfold usable.
  destruct (truthyNum a) eqn:Ea; [|by apply truthyNum_false in Ea].
  destruct (truthyNum b) eqn:Eb; [|by apply truthyNum_false in Eb].
  done.
Qed.

Lemma usable_zero (rlat rlon : option Q) :
  isZero rlat ∨ isZero rlon → usable rlat rlon = None.
Proof.
  unfold usable. intros [(z & -> & Hz) | (z & -> & Hz)];
    apply truthyNum_false in Hz; rewrite Hz.
  - by destruct rlon.
  - destruct rlat; [|done]. by rewrite andb_false_r.
Qed.

Lemma jsOr_zero (a b : option Q) : isZero a → jsOr a b = b.
Proof.
  intros (z & -> & Hz). unfold jsOr. simpl.
  apply truthyNum_false in Hz. by rewrite Hz.
Qed.

Lemma jsOr_nonzero (a : option Q) (b : option Q) (x : Q) :
  a = Some x → ¬ (x == 0)%Q → jsOr a b = Some x.
Proof.
  intros -> Hx. unfold jsOr. simpl.
  destruct (truthyNum x) eqn:E; [done|]. by apply truthyNum_false in E.
Qed.

Section SearchFacts.

Variable haversine : Q → Q → Q → Q → Q.
Variable position : Element → option (Q * Q).
Variables lat0 lon0 : Q.

Let step := nearestStep haversine position lat0 lon0.

Lemma nearestStep_skip (acc : option Element * Q) (el : Element) :
  position el = None → step acc el = acc.
Proof. intros H. unfold step, nearestStep. by rewrite H. Qed.

Lemma nearest_skip (els1 els2 : list Element) (el : Element) :
  position el = None →
  nearest haversine position lat0 lon0 (els1 ++ el :: els2)
  = nearest haversine position lat0 lon0 (els1 ++ els2).
Proof.
  intros H. unfold nearest. rewrite !fold_left_app. simpl.
  by rewrite (nearestStep_skip _ el H).
Qed.

(** Once a feature has been found, the search keeps one. *)
Lemma nearest_fold_keeps (els : list Element) (acc : option Element * Q) :
  is_Some (fst acc) → is_Some (fst (fold_left step els acc)).
Proof.
  revert acc. induction els as [|x els IH]; intros acc Hacc; simpl; [done|].
  apply IH. unfold step, nearestStep.
  destruct (position x) as [[a b]|]; [|done].
  by destruct (numLt _ _).
Qed.

(** A feature with a usable position closer than the current bound is
    never missed. *)
Lemma nearest_fold_finds (els : list Element) (acc : option Element * Q)
    (el : Element) (a b : Q) :
  el ∈ els → position el = Some (a, b) →
  (haversine lat0 lon0 a b < PROXIMITY_KM)%Q →
  is_Some (fst acc) ∨ snd acc = PROXIMITY_KM →
  is_Some (fst (fold_left step els acc)).
Proof.
  intros Hin Hpos Hd. revert acc.
  induction els as [|x els IH]; intros acc Hacc; [by apply elem_of_nil in Hin|].
  simpl. apply elem_of_cons in Hin as [<-|Hin].
  - apply nearest_fold_keeps. unfold step, nearestStep. rewrite Hpos.
    destruct (numLt _ _) eqn:Hlt; [by eauto|].
    destruct Hacc as [Hacc|Hacc]; [done|].
    rewrite Hacc in Hlt. apply numLt_lt in Hd. congruence.
  - apply IH; [done|]. unfold step, nearestStep.
    destruct (position x) as [[a' b']|]; [|done].
    destruct (numLt _ _); [left; by eauto | done].
Qed.

Lemma nearest_finds (els : list Element) (el : Element) (a b : Q) :
  el ∈ els → position el = Some (a, b) →
  (haversine lat0 lon0 a b < PROXIMITY_KM)%Q →
  is_Some (nearest haversine position lat0 lon0 els).
Proof.
  intros Hin Hpos Hd. unfold nearest.
  eapply nearest_fold_finds; [done | done | done | by right].
Qed.

End SearchFacts.

(** Pass precedence.  When the marker's point is strictly less than 1.0 km
    from some pass feature whose latitude and longitude are both non-zero,
    the entry has type pass, whatever rivers and towns are around: passes
    are searched first, then rivers, then towns. *)
Lemma pass_within_threshold_wins (haversine : Q → Q → Q → Q → Q)
    (points : list Point) (fs : Features) (idx : nat) (p : Point)
    (el : Element) (elat elon : Q) :
  points !! idx = Some p →
  el ∈ passes fs →
  el_lat el = Some elat → el_lon el = Some elon →
  ¬ (elat == 0)%Q → ¬ (elon == 0)%Q →
  (haversine (lat p) (lon p) elat elon < PROXIMITY_KM)%Q →
  ∃ n, classifyMarker haversine points fs idx
       = Some (Some {| type := pass; name := n |}).
Proof.
  intros Hp Hin Hlat Hlon Hlat0 Hlon0 Hd.
  unfold classifyMarker. rewrite Hp. cbn [mbind option_bind].
  destruct (nearest_finds haversine nodePosition (lat p) (lon p)
              (passes fs) el elat elon) as [np Hnp]; [done | | done |].
  { by apply usable_Some. }
  rewrite Hnp. eauto.
Qed.

(** C6 at a pass on the equator.  The marker is 111 m from the pass and
    right on the river's centre, so within the threshold of both; the
    pass search skips the pass because its latitude 0 is falsy, and the
    entry is the river. *)
Theorem pass_on_equator_loses_to_river :
  [equatorPoint] !! 0 = Some equatorPoint
  ∧ equatorPass ∈ passes {| passes := [equatorPass]; rivers := [equatorRiver]; towns := [] |}
  ∧ (planarKm (lat equatorPoint) (lon equatorPoint) 0 10 < PROXIMITY_KM)%Q
  ∧ (planarKm (lat equatorPoint) (lon equatorPoint) (1 / 1000) 10 < PROXIMITY_KM)%Q
  ∧ nodePosition equatorPass = None
  ∧ classifyMarker planarKm [equatorPoint]
      {| passes := [equatorPass]; rivers := [equatorRiver]; towns := [] |} 0
    = Some (Some {| type := river; name := "Rio" |}).
Proof.
  split_and!.
  - reflexivity.
  - apply list_elem_of_singleton. reflexivity.
  - vm_compute. reflexivity.
  - vm_compute. reflexivity.
  - reflexivity.
  - vm_compute. reflexivity.
Qed.

(** ** Coordinates equal to 0 *)

(** C10, as the code has it.  A pass or town whose latitude or longitude
    is 0 is left out of the nearest-feature search.  For a river each
    coordinate is replaced on its own: a coordinate that is 0 gives way to
    the same coordinate of the centre while a non-zero one is kept, so the
    distance is measured to the centre point only when both are 0. *)
Theorem zero_coordinate_counts_as_missing :
  (∀ haversine lat0 lon0 (els1 els2 : list Element) (el : Element),
     isZero (el_lat el) ∨ isZero (el_lon el) →
     nearest haversine nodePosition lat0 lon0 (els1 ++ el :: els2)
     = nearest haversine nodePosition lat0 lon0 (els1 ++ els2))
  ∧ (∀ (el : Element) (c : Center) (a b : Q),
       isZero (el_lat el) → el_lon el = Some b → ¬ (b == 0)%Q →
       center el = Some c → c_lat c = Some a → ¬ (a == 0)%Q →
       riverPosition el = Some (a, b))
  ∧ (∀ (el : Element) (c : Center) (a b : Q),
       el_lat el = Some a → ¬ (a == 0)%Q → isZero (el_lon el) →
       center el = Some c → c_lon c = Some b → ¬ (b == 0)%Q →
       riverPosition el = Some (a, b))
  ∧ (∀ (el : Element) (c : Center) (a b : Q),
       isZero (el_lat el) → isZero (el_lon el) →
       center el = Some c → c_lat c = Some a → c_lon c = Some b →
       ¬ (a == 0)%Q → ¬ (b == 0)%Q →
       riverPosition el = Some (a, b)).
Proof.
  split_and!.
  - intros haversine lat0 lon0 els1 els2 el Hz.
    apply nearest_skip. by apply usable_zero.
  - intros el c a b Hlat Hlon Hb Hc Ha Ha0. unfold riverPosition.
    rewrite (jsOr_zero _ _ Hlat), (jsOr_nonzero _ _ b Hlon Hb), Hc. cbn [mbind option_bind].
    by apply usable_Some.
  - intros el c a b Hlat Ha Hlon Hc Hb Hb0. unfold riverPosition.
    rewrite (jsOr_zero _ _ Hlon), (jsOr_nonzero _ _ a Hlat Ha), Hc. cbn [mbind option_bind].
    by apply usable_Some.
  - intros el c a b Hlat Hlon Hc Ha Hb Ha0 Hb0. unfold riverPosition.
    rewrite (jsOr_zero _ _ Hlat), (jsOr_zero _ _ Hlon), Hc. cbn [mbind option_bind].
    by apply usable_Some.
Qed.

Lemma zero_coordinate_counts_as_missing_witness :
  isZero (el_lat mixedRiver)
  ∧ riverPosition mixedRiver = Some (45, 7)%Q.
Proof.
  assert (isZero (el_lat mixedRiver)) as Hz by (by exists 0%Q).
  split; [exact Hz|].
  apply (proj1 (proj2 zero_coordinate_counts_as_missing) mixedRiver
           {| c_lat := Some 45%Q; c_lon := Some 8%Q |} 45%Q 7%Q Hz).
  - reflexivity.
  - intros H. vm_compute in H. discriminate.
  - reflexivity.
  - reflexivity.
  - intros H. vm_compute in H. discriminate.
Defined.

(** A river with latitude 0 and a non-zero longitude is not measured to
    its centre point (45, 8) but to (45, 7): the centre's latitude with the
    river's own longitude. *)
Lemma river_with_one_zero_coordinate_mixes :
  isZero (el_lat mixedRiver)
  ∧ center mixedRiver = Some {| c_lat := Some 45%Q; c_lon := Some 8%Q |}
  ∧ riverPosition mixedRiver = Some (45, 7)%Q
  ∧ riverPosition mixedRiver ≠ Some (45, 8)%Q.
Proof.
  split_and!.
  - by exists 0%Q.
  - reflexivity.
  - reflexivity.
  - intros H. vm_compute in H. discriminate.
Qed.

(** ** The block filter *)

Lemma entryKey_inj (e1 e2 : Entry) : entryKey e1 = entryKey e2 → e1 = e2.
Proof. destruct e1 as [[] n1], e2 as [[] n2]; cbv; intros [=]; by subst. Qed.

Lemma fold_left_preserves {S A} (P : S → Prop) (step : S → A → S)
    (l : list A) (st : S) :
  P st → (∀ st x, P st → P (step st x)) → P (fold_left step l st).
Proof.
  intros Hst Hstep. revert st Hst.
  induction l as [|x l IH]; intros st Hst; simpl; [done|]. by apply IH, Hstep.
Qed.

Lemma accept_Claimed (km : Z) (entry : Entry) (st : FilterState) :
  Claimed st → Claimed (accept km entry st).
Proof.
  intros Hst km' Hkm'. unfold accept in *. simpl in *.
  destruct (decide (km = km')) as [<-|Hne]; [set_solver|].
  rewrite lookup_insert_ne in Hkm' by done.
  apply elem_of_union_r. by apply Hst.
Qed.

Lemma accept_SeenTypes (T : LandmarkType → Prop) (km : Z) (entry : Entry)
    (st : FilterState) :
  T (type entry) → SeenTypes T st → SeenTypes T (accept km entry st).
Proof.
  intros HT Hst k Hk. unfold accept in Hk. simpl in Hk.
  apply elem_of_union in Hk as [->%elem_of_singleton|Hk]; [by exists entry|].
  by apply Hst.
Qed.

Lemma SeenTypes_weaken (T T' : LandmarkType → Prop) (st : FilterState) :
  (∀ t, T t → T' t) → SeenTypes T st → SeenTypes T' st.
Proof. intros HT Hst k Hk. destruct (Hst k Hk) as (e & -> & He). eauto. Qed.

Lemma SeenTypes_not_elem (T : LandmarkType → Prop) (st : FilterState) (e : Entry) :
  SeenTypes T st → ¬ T (type e) → entryKey e ∉ seen st.
Proof.
  intros Hst HT Hin. destruct (Hst _ Hin) as (e' & Heq & He').
  apply entryKey_inj in Heq as <-. done.
Qed.

Lemma pass1_inv (kms : list Z) (summary : gmap Z Entry) :
  Claimed (pass1 kms summary) ∧ SeenTypes (λ t, t = pass) (pass1 kms summary).
Proof.
  unfold pass1.
  apply (fold_left_preserves (λ st, Claimed st ∧ SeenTypes (λ t, t = pass) st)).
  - split; [intros km [? H] | intros k H]; simpl in H.
    + by rewrite lookup_empty in H.
    + by apply not_elem_of_empty in H.
  - intros st km [Hc Hs]. unfold pass1Step. repeat case_match; try done.
    split; [by apply accept_Claimed|].
    apply accept_SeenTypes; [|done]. by eapply bool_decide_eq_true_1.
Qed.

Lemma pass2_inv (kms : list Z) (summary : gmap Z Entry) (st : FilterState) :
  Claimed st → SeenTypes (λ t, t ≠ town) st →
  Claimed (pass2 kms summary st) ∧ SeenTypes (λ t, t ≠ town) (pass2 kms summary st).
Proof.
  intros Hc Hs. unfold pass2.
  apply (fold_left_preserves (λ st, Claimed st ∧ SeenTypes (λ t, t ≠ town) st));
    [done|].
  clear. intros st km [Hc Hs]. unfold pass2Step. repeat case_match; try done.
  split; [by apply accept_Claimed|].
  apply accept_SeenTypes; [|done].
  match goal with H : negb (bool_decide _) = false |- _ =>
    apply negb_false_iff, bool_decide_eq_true_1 in H; by rewrite H end.
Qed.

Lemma collectTowns_inv (kms : list Z) (summary : gmap Z Entry)
    (towns : list Element) (st : FilterState) :
  Candidates st (collectTowns kms summary towns st).
Proof.
  unfold collectTowns. apply (fold_left_preserves (Candidates st)).
  - intros b c H. by rewrite lookup_empty in H.
  - intros bt km Hbt. unfold collectStep.
    destruct (summary !! km) as [entry|]; [|done].
    destruct (negb (bool_decide (type entry = town))) eqn:Ht; [done|].
    apply negb_false_iff, bool_decide_eq_true_1 in Ht.
    destruct (isUnnamed (name entry)); [done|].
    destruct (bool_decide (blockOf km ∈ blockHas st)) eqn:Hb; [done|].
    apply bool_decide_eq_false_1 in Hb.
    assert (Candidates st
              (<[blockOf km := {| cand_km := km; cand_entry := entry;
                                  cand_pop := townPopulation towns entry |}]> bt))
      as Hins.
    { intros b c Hbc. destruct (decide (blockOf km = b)) as [<-|Hne].
      - rewrite lookup_insert_eq in Hbc. by simplify_eq.
      - rewrite lookup_insert_ne in Hbc by done. by apply Hbt. }
    simpl. destruct (bt !! blockOf km); [|done]. by destruct (popGt _ _).
Qed.

(** What one iteration of the second loop of pass 3 does to an unclaimed
    block that has a candidate. *)
Lemma acceptStep_spec (bt : gmap Z TownCand) (st : FilterState) (b : Z)
    (c : TownCand) :
  bt !! b = Some c → b ∉ blockHas st →
  blockHas (acceptStep bt st b) = {[b]} ∪ blockHas st
  ∧ (∀ k, k ∈ seen (acceptStep bt st b) ↔ k = entryKey (cand_entry c) ∨ k ∈ seen st)
  ∧ filtered (acceptStep bt st b)
    = if decide (entryKey (cand_entry c) ∈ seen st) then filtered st
      else <[cand_km c := cand_entry c]> (filtered st).
Proof.
  intros Hc Hb. unfold acceptStep. rewrite Hc.
  rewrite bool_decide_eq_false_2 by done.
  destruct (decide (entryKey (cand_entry c) ∈ seen st)) as [Hin|Hnin].
  - rewrite bool_decide_eq_true_2 by done. simpl. split_and!; [done | | done].
    intros k. split; [by right | by intros [->|?]].
  - rewrite bool_decide_eq_false_2 by done. simpl. split_and!; [done | | done].
    intros k. set_solver.
Qed.

Section AcceptTowns.

Variable bt : gmap Z TownCand.
Hypothesis Hbt : ∀ b c, bt !! b = Some c → blockOf (cand_km c) = b.

Lemma acceptStep_Claimed (st : FilterState) (b : Z) :
  b ∉ blockHas st → Claimed st → Claimed (acceptStep bt st b).
Proof.
  intros Hb Hst. destruct (bt !! b) as [c|] eqn:Hc.
  - destruct (acceptStep_spec bt st b c Hc Hb) as (HbH & _ & Hf).
    intros km Hkm. rewrite HbH. rewrite Hf in Hkm.
    destruct (decide _); [apply elem_of_union_r; by apply Hst|].
    destruct (decide (cand_km c = km)) as [<-|Hne].
    + rewrite (Hbt b c Hc). by apply elem_of_union_l, elem_of_singleton.
    + rewrite lookup_insert_ne in Hkm by done.
      apply elem_of_union_r; by apply Hst.
  - unfold acceptStep. by rewrite Hc.
Qed.

(** The loop leaves alone every key that is no candidate's kilometre. *)
Lemma acceptTowns_frame (bs : list Z) (st : FilterState) (km : Z) :
  (∀ b c, b ∈ bs → bt !! b = Some c → cand_km c ≠ km) →
  filtered (fold_left (acceptStep bt) bs st) !! km = filtered st !! km.
Proof.
  revert st. induction bs as [|b bs IH]; intros st Hbs; simpl; [done|].
  rewrite IH by (intros b' c' Hb'; apply Hbs; by right).
  unfold acceptStep. destruct (bt !! b) as [c|] eqn:Hc; [|done].
  repeat case_match; try done. simpl.
  apply lookup_insert_ne. apply (Hbs b c); [by left | done].
Qed.

(** The candidate of the block at position [i] ends up in [filtered]
    exactly when its key was not seen before the loop and differs from the
    key of every candidate at an earlier position. *)
Lemma acceptTowns_fold (bs : list Z) (st : FilterState) (i : nat) (b : Z)
    (c : TownCand) :
  NoDup bs → (∀ b', b' ∈ bs → (b' ∉ blockHas st) ∧ is_Some (bt !! b')) →
  Claimed st →
  bs !! i = Some b → bt !! b = Some c →
  (filtered (fold_left (acceptStep bt) bs st) !! cand_km c = Some (cand_entry c))
  ↔ ((entryKey (cand_entry c) ∉ seen st)
     ∧ (∀ j b' c', j < i → bs !! j = Some b' → bt !! b' = Some c' →
          entryKey (cand_entry c') ≠ entryKey (cand_entry c))).
Proof.
  revert st i. induction bs as [|b0 bs IH]; intros st i Hnd Hfree Hst Hi Hc;
    [done|].
  apply NoDup_cons in Hnd as [Hb0 Hnd].
  destruct (Hfree b0) as [Hb0free [c0 Hc0]]; [by left|].
  destruct (acceptStep_spec bt st b0 c0 Hc0 Hb0free) as (HbH & Hseen & Hf).
  simpl. destruct i as [|i]; simpl in Hi.
  - simplify_eq. rewrite acceptTowns_frame.
    + rewrite Hf. destruct (decide _) as [Hin|Hnin].
      * split; [|by intros [? _]]. intros Hsome. exfalso.
        apply Hb0free. rewrite <- (Hbt b c Hc). apply Hst. by eauto.
      * rewrite lookup_insert_eq. split; [|done]. intros _. split; [done|].
        intros j ? ? Hj. lia.
    + intros b' c' Hb' Hc' Heq. apply Hb0.
      rewrite <- (Hbt b c Hc), <- Heq, (Hbt b' c' Hc'). done.
  - rewrite (IH (acceptStep bt st b0) i Hnd); [| |by apply acceptStep_Claimed|done|done].
    + rewrite Hseen. split.
      * intros [Hns Hall]. split; [tauto|].
        intros j b' c' Hj Hj' Hc'. destruct j as [|j]; simpl in Hj'.
        -- simplify_eq. intros Heq. apply Hns. by left.
        -- apply (Hall j b' c'); [lia | done | done].
      * intros [Hns Hall]. split.
        -- intros [Heq|Hin]; [|done].
           by apply (Hall 0 b0 c0); [lia | done | done |].
        -- intros j b' c' Hj Hj' Hc'. apply (Hall (S j) b' c'); [lia | done | done].
    + intros b' Hb'. destruct (Hfree b') as [Hfr Hsome]; [by right|].
      split; [|done]. rewrite HbH.
      intros [Heq%elem_of_singleton | Hin]%elem_of_union; [|done].
      by subst.
Qed.

End AcceptTowns.

Lemma NoDup_sortedKeys {V} (m : gmap Z V) : NoDup (sortedKeys m).
Proof. unfold sortedKeys. rewrite merge_sort_Permutation. apply NoDup_elements. Qed.

Lemma town_key_eq (e1 e2 : Entry) :
  type e1 = town → type e2 = town →
  entryKey e1 = entryKey e2 ↔ name e1 = name e2.
Proof.
  intros H1 H2. split; [by intros ->%entryKey_inj|].
  destruct e1, e2. simpl in *. by intros; subst.
Qed.

Lemma pass12_inv (kms : list Z) (summary : gmap Z Entry) :
  Claimed (pass2 kms summary (pass1 kms summary))
  ∧ SeenTypes (λ t, t ≠ town) (pass2 kms summary (pass1 kms summary)).
Proof.
  destruct (pass1_inv kms summary) as [Hc Hs].
  apply pass2_inv; [done|].
  eapply SeenTypes_weaken; [|done]. by intros t ->.
Qed.

(** C2, as the code has it.  For marker kilometres as the sampler
    produces them (none negative): no key recorded by pass 1 or pass 2 is
    a town key, so pass 3 never rejects a winner on their account; the
    winning town of a block is accepted exactly when no lower-numbered
    block of pass 3 has a winner of the same name. *)
Theorem town_winner_barred_only_by_earlier_namesake (kms : list Z)
    (summary : gmap Z Entry) (towns : list Element) (b : Z) (c : TownCand) :
  Forall (Z.le 0) kms →
  collectTowns kms summary towns (pass2 kms summary (pass1 kms summary)) !! b
    = Some c →
  (∀ n, entryKey {| type := town; name := n |}
        ∉ seen (pass2 kms summary (pass1 kms summary)))
  ∧ ((filtered (pass3 kms summary towns (pass2 kms summary (pass1 kms summary)))
        !! cand_km c = Some (cand_entry c))
     ↔ (∀ b' c', (b' < b)%Z →
          collectTowns kms summary towns (pass2 kms summary (pass1 kms summary)) !! b'
            = Some c' →
          name (cand_entry c') ≠ name (cand_entry c))).
Proof.
  intros _ Hc.
  destruct (pass12_inv kms summary) as [Hclaimed Hseen].
  pose proof (collectTowns_inv kms summary towns
                (pass2 kms summary (pass1 kms summary))) as Hcand.
  set (st2 := pass2 kms summary (pass1 kms summary)) in *.
  set (bt := collectTowns kms summary towns st2) in *.
  assert (∀ n, entryKey {| type := town; name := n |} ∉ seen st2) as Hnotown.
  { intros n. eapply SeenTypes_not_elem; [done|]. simpl. by intros H. }
  split; [done|].
  assert (b ∈ sortedKeys bt) as Hb by (apply elem_of_sortedKeys; eauto).
  apply list_elem_of_lookup_1 in Hb as [i Hi].
  unfold pass3, acceptTowns. fold bt.
  rewrite (acceptTowns_fold bt (λ b c H, proj1 (Hcand b c H))
             (sortedKeys bt) st2 i b c (NoDup_sortedKeys bt)); [|
    |done|done|done].
  2:{ intros b' [c' Hc']%elem_of_sortedKeys. split; [|by eauto].
      by destruct (Hcand b' c' Hc') as (_ & _ & ?). }
  destruct (Hcand b c Hc) as (_ & Htown & _).
  split.
  - intros [_ Hall] b' c' Hlt Hc'.
    destruct (Hcand b' c' Hc') as (_ & Htown' & _).
    assert (b' ∈ sortedKeys bt) as Hb' by (apply elem_of_sortedKeys; eauto).
    apply list_elem_of_lookup_1 in Hb' as [j Hj].
    rewrite <- town_key_eq by done.
    apply (Hall j b' c'); [|done|done].
    destruct (decide (j < i)) as [|Hge]; [done|]. exfalso.
    destruct (decide (j = i)) as [->|Hne]; [simplify_eq; lia|].
    pose proof (StronglySorted_lookup_lt Z.lt _ i j b b'
                  (sortedKeys_sorted bt) Hi Hj). lia.
  - intros Hall. split.
    { replace (cand_entry c) with {| type := town; name := name (cand_entry c) |}
        by (destruct (cand_entry c); simpl in *; by subst).
      apply Hnotown. }
    intros j b' c' Hj Hjb Hc'.
    destruct (Hcand b' c' Hc') as (_ & Htown' & _).
    rewrite town_key_eq by done.
    apply (Hall b' c'); [|done].
    apply (StronglySorted_lookup_lt Z.lt _ j i b' b (sortedKeys_sorted bt));
      done.
Qed.

Lemma town_winner_barred_only_by_earlier_namesake_witness :
  Forall (Z.le 0) fiveKmMarkers
  ∧ collectTowns fiveKmMarkers twinSummary twinTowns
    (pass2 fiveKmMarkers twinSummary (pass1 fiveKmMarkers twinSummary)) !! 0%Z
  = Some {| cand_km := 5; cand_entry := {| type := town; name := "Neustadt" |};
            cand_pop := PopVal 3000 |}
  ∧ ((filtered (pass3 fiveKmMarkers twinSummary twinTowns
                  (pass2 fiveKmMarkers twinSummary (pass1 fiveKmMarkers twinSummary)))
        !! 5%Z = Some {| type := town; name := "Neustadt" |})
     ↔ (∀ b' c', (b' < 0)%Z →
          collectTowns fiveKmMarkers twinSummary twinTowns
            (pass2 fiveKmMarkers twinSummary (pass1 fiveKmMarkers twinSummary)) !! b'
            = Some c' →
          name (cand_entry c') ≠ "Neustadt")).
Proof.
  assert (collectTowns fiveKmMarkers twinSummary twinTowns
            (pass2 fiveKmMarkers twinSummary (pass1 fiveKmMarkers twinSummary)) !! 0%Z
          = Some {| cand_km := 5; cand_entry := {| type := town; name := "Neustadt" |};
                    cand_pop := PopVal 3000 |}) as Hc
    by (vm_compute; reflexivity).
  assert (Forall (Z.le 0) fiveKmMarkers) as Hpos
    by (unfold fiveKmMarkers; repeat constructor; lia).
  split_and!; [exact Hpos | exact Hc |].
  exact (proj2 (town_winner_barred_only_by_earlier_namesake fiveKmMarkers
                  twinSummary twinTowns 0 _ Hpos Hc)).
Defined.

(** Two blocks whose winning towns share a name: passes 1 and 2 accepted
    nothing, yet only the town of the earlier block is kept. *)
Lemma later_namesake_town_is_rejected :
  seen (pass2 fiveKmMarkers twinSummary (pass1 fiveKmMarkers twinSummary)) = ∅
  ∧ collectTowns fiveKmMarkers twinSummary twinTowns
      (pass2 fiveKmMarkers twinSummary (pass1 fiveKmMarkers twinSummary)) !! 1%Z
    = Some {| cand_km := 15; cand_entry := {| type := town; name := "Neustadt" |};
              cand_pop := PopVal 3000 |}
  ∧ filtered (pass3 fiveKmMarkers twinSummary twinTowns
                (pass2 fiveKmMarkers twinSummary (pass1 fiveKmMarkers twinSummary)))
      !! 5%Z = Some {| type := town; name := "Neustadt" |}
  ∧ filtered (pass3 fiveKmMarkers twinSummary twinTowns
                (pass2 fiveKmMarkers twinSummary (pass1 fiveKmMarkers twinSummary)))
      !! 15%Z = None.
Proof. split_and!; vm_compute; reflexivity. Qed.

Lemma accept_keeps (summary : gmap Z Entry) (km : Z) (entry : Entry)
    (st : FilterState) (k : Z) (e : Entry) :
  summary !! km = Some entry → Backed summary st →
  filtered st !! k = Some e → filtered (accept km entry st) !! k = Some e.
Proof.
  intros Hkm (H1 & _ & _) Hk. unfold accept. simpl.
  destruct (decide (km = k)) as [<-|Hne]; [|by rewrite lookup_insert_ne].
  rewrite lookup_insert_eq. apply H1 in Hk. congruence.
Qed.

Lemma accept_Backed (summary : gmap Z Entry) (km : Z) (entry : Entry)
    (st : FilterState) :
  summary !! km = Some entry → Backed summary st →
  Backed summary (accept km entry st).
Proof.
  intros Hkm Hst. pose proof (accept_keeps summary km entry st) as Hkeep.
  destruct Hst as (H1 & H2 & H3). split_and!.
  - intros k e Hk. unfold accept in Hk. simpl in Hk.
    destruct (decide (km = k)) as [<-|Hne].
    + rewrite lookup_insert_eq in Hk. congruence.
    + rewrite lookup_insert_ne in Hk by done. by apply H1.
  - intros b Hb. unfold accept in Hb. simpl in Hb.
    apply elem_of_union in Hb as [->%elem_of_singleton|Hb].
    + exists km. split; [|done]. unfold accept. simpl.
      rewrite lookup_insert_eq. by eauto.
    + destruct (H2 b Hb) as (k & [e Hk] & Hbk). exists k. split; [|done].
      exists e. by apply Hkeep.
  - intros key Hkey. unfold accept in Hkey. simpl in Hkey.
    apply elem_of_union in Hkey as [->%elem_of_singleton|Hkey].
    + exists km, entry. split; [|done]. unfold accept. simpl.
      apply lookup_insert_eq.
    + destruct (H3 key Hkey) as (k & e & Hk & He). exists k, e.
      split; [|done]. by apply Hkeep.
Qed.

Lemma pass1Step_cases (summary : gmap Z Entry) (st : FilterState) (km : Z) :
  pass1Step summary st km = st
  ∨ ∃ entry, summary !! km = Some entry ∧ pass1Step summary st km = accept km entry st.
Proof. unfold pass1Step. repeat case_match; eauto. Qed.

Lemma pass2Step_cases (summary : gmap Z Entry) (st : FilterState) (km : Z) :
  pass2Step summary st km = st
  ∨ ∃ entry, summary !! km = Some entry ∧ pass2Step summary st km = accept km entry st.
Proof. unfold pass2Step. repeat case_match; eauto. Qed.

Lemma pass1_Backed (kms : list Z) (summary : gmap Z Entry) :
  Backed summary (pass1 kms summary).
Proof.
  unfold pass1. apply (fold_left_preserves (Backed summary)).
  - split_and!; simpl.
    + intros k e H. by rewrite lookup_empty in H.
    + intros b H. by apply not_elem_of_empty in H.
    + intros key H. by apply not_elem_of_empty in H.
  - intros st km Hst.
    destruct (pass1Step_cases summary st km) as [->|(entry & Hkm & ->)]; [done|].
    by apply accept_Backed.
Qed.

Lemma pass2Step_Backed (summary : gmap Z Entry) (st : FilterState) (km : Z) :
  Backed summary st → Backed summary (pass2Step summary st km).
Proof.
  intros Hst.
  destruct (pass2Step_cases summary st km) as [->|(entry & Hkm & ->)]; [done|].
  by apply accept_Backed.
Qed.

(** Pass 2 never drops or replaces what has been accepted. *)
Lemma pass2_keeps (summary : gmap Z Entry) (l : list Z) (st : FilterState)
    (k : Z) (e : Entry) :
  Backed summary st → filtered st !! k = Some e →
  filtered (fold_left (pass2Step summary) l st) !! k = Some e.
Proof.
  revert st. induction l as [|km l IH]; intros st Hst Hk; simpl; [done|].
  apply IH; [by apply pass2Step_Backed|].
  destruct (pass2Step_cases summary st km) as [->|(entry & Hkm & ->)]; [done|].
  by apply (accept_keeps summary).
Qed.








(** Two named rivers in one block that pass 1 left unclaimed: pass 2
    accepts the first and, its block now claimed, drops the second. *)
Lemma earlier_river_of_block_bars_later :
  blockHas (pass1 [0; 2; 4]%Z
              {[ 2%Z := {| type := river; name := "Aare" |};
                 4%Z := {| type := river; name := "Reuss" |} ]}) = ∅
  ∧ filtered (pass2 [0; 2; 4]%Z
                {[ 2%Z := {| type := river; name := "Aare" |};
                   4%Z := {| type := river; name := "Reuss" |} ]}
                (pass1 [0; 2; 4]%Z
                   {[ 2%Z := {| type := river; name := "Aare" |};
                      4%Z := {| type := river; name := "Reuss" |} ]}))
    = {[ 2%Z := {| type := river; name := "Aare" |} ]}.
Proof. split; vm_compute; reflexivity. Qed.

(** ** Population of a town *)

(** C4 at a concrete run.  The first town of block 0 has a population tag
    without any digit: it parses to NaN, not 0, no population compares
    greater than NaN, and the town stays the winner of its block over a
    town of 5000, in the filter alone and in the whole run. *)
Theorem digitless_population_is_NaN_and_wins :
  townPopulation valleyTowns {| type := town; name := "Ayton" |} = PopNaN
  ∧ townPopulation valleyTowns {| type := town; name := "Beeton" |} = PopVal 5000
  ∧ (∀ pop, popGt pop PopNaN = false)
  ∧ filterStage [0; 2; 4; 6]%Z
      {[ 2%Z := {| type := town; name := "Ayton" |};
         4%Z := {| type := town; name := "Beeton" |} ]} valleyTowns
    = {[ 2%Z := {| type := town; name := "Ayton" |} ]}
  ∧ analyzeGpxRouteWithProgress planarKm (λ _, lookupJson (Some valleyTowns))
      valleyTrack true true
    = Completed [Progress 1 4; Progress 2 4; Progress 3 4; Progress 4 4;
                 Done {[ 2%Z := {| type := town; name := "Ayton" |} ]}].
Proof.
  split_and!;
    [vm_compute; reflexivity | vm_compute; reflexivity | by intros []
    | vm_compute; reflexivity | vm_compute; reflexivity].
Qed.


(** * Further properties *)

(** ** Bucketing the payload *)

Lemma bucket_fold (els : list Element) (fs : Features) :
  fold_left bucket els fs
  = {| passes := passes fs ++ List.filter isPass els;
       rivers := rivers fs
                 ++ List.filter (λ el, negb (isPass el) && isRiver el) els;
       towns := towns fs
                ++ List.filter
                     (λ el, negb (isPass el) && negb (isRiver el) && isTown el)
                     els |}.
Proof.
  revert fs. induction els as [|el els IH]; intros fs; simpl.
  - rewrite !app_nil_r. by destruct fs.
  - rewrite IH. unfold bucket.
    destruct (isPass el), (isRiver el), (isTown el); simpl;
      by rewrite <- ?app_assoc.
Qed.

(** X1. The three collections are sub-lists of the payload in payload
    order, and they partition it by precedence: an element tagged as a
    mountain pass is a pass only, an element tagged as a river is a river
    unless it is a pass, and a place is a town unless it is either. *)
Theorem featuresOf_partitions_payload (els : list Element) :
  featuresOf (lookupJson (Some els))
  = {| passes := List.filter isPass els;
       rivers := List.filter (λ el, negb (isPass el) && isRiver el) els;
       towns := List.filter
                  (λ el, negb (isPass el) && negb (isRiver el) && isTown el)
                  els |}.
Proof. unfold featuresOf. by rewrite bucket_fold. Qed.

(** ** What a nearest-feature search returns *)

Section SearchResult.

Variable haversine : Q → Q → Q → Q → Q.
Variable position : Element → option (Q * Q).
Variables lat0 lon0 : Q.

Lemma SearchInv_fold (els : list Element) :
  SearchInv haversine position lat0 lon0 els
    (fold_left (nearestStep haversine position lat0 lon0) els (None, PROXIMITY_KM)).
Proof.
  induction els as [|x els IH] using rev_ind.
  - split; [done|]. intros el a b Hin. by apply elem_of_nil in Hin.
  - rewrite fold_left_app. simpl.
    destruct (fold_left _ els _) as [[el|] d]; unfold SearchInv in *; simpl in *.
    + destruct IH as (l1 & l2 & a & b & -> & Hpos & -> & Hlt & H1 & H2).
      unfold nearestStep. simpl.
      destruct (position x) as [[a' b']|] eqn:Hx.
      * destruct (numLt _ _) eqn:Hc; simpl.
        -- apply numLt_lt in Hc.
           exists (l1 ++ el :: l2), [], a', b'. split_and!; try done.
           ++ lra.
           ++ intros el' a'' b'' Hin Hpos'.
              apply elem_of_app in Hin as [Hin|Hin].
              ** specialize (H1 el' a'' b'' Hin Hpos'). lra.
              ** apply elem_of_cons in Hin as [->|Hin].
                 --- rewrite Hpos in Hpos'. by simplify_eq.
                 --- specialize (H2 el' a'' b'' Hin Hpos'). lra.
           ++ intros el' a'' b'' Hin. by apply elem_of_nil in Hin.
        -- apply not_true_iff_false in Hc. rewrite numLt_lt in Hc.
           exists l1, (l2 ++ [x]), a, b. split_and!; try done.
           ++ by rewrite <- app_assoc.
           ++ intros el' a'' b'' Hin Hpos'.
              apply elem_of_app in Hin as [Hin|Hin%list_elem_of_singleton].
              ** by apply (H2 el').
              ** subst. rewrite Hx in Hpos'. simplify_eq. lra.
      * exists l1, (l2 ++ [x]), a, b. split_and!; try done.
        -- by rewrite <- app_assoc.
        -- intros el' a'' b'' Hin Hpos'.
           apply elem_of_app in Hin as [Hin|Hin%list_elem_of_singleton].
           ++ by apply (H2 el').
           ++ subst. congruence.
    + destruct IH as [-> Hall]. unfold nearestStep. simpl.
      destruct (position x) as [[a' b']|] eqn:Hx.
      * destruct (numLt _ _) eqn:Hc; simpl.
        -- apply numLt_lt in Hc.
           exists els, [], a', b'. split_and!; try done.
           ++ intros el' a'' b'' Hin Hpos'.
              specialize (Hall el' a'' b'' Hin Hpos'). lra.
           ++ intros el' a'' b'' Hin. by apply elem_of_nil in Hin.
        -- apply not_true_iff_false in Hc. rewrite numLt_lt in Hc.
           split; [done|]. intros el' a'' b'' Hin Hpos'.
           apply elem_of_app in Hin as [Hin|Hin%list_elem_of_singleton].
           ++ by apply (Hall el').
           ++ subst. rewrite Hx in Hpos'. simplify_eq. lra.
      * split; [done|]. intros el' a'' b'' Hin Hpos'.
        apply elem_of_app in Hin as [Hin|Hin%list_elem_of_singleton].
        -- by apply (Hall el').
        -- subst. congruence.
Qed.

(** X2. The feature a search returns has a usable position strictly
    closer than 1.0 km, no feature with a usable position is closer, and
    among the closest ones it is the first in collection order. *)
Theorem nearest_is_first_closest (els : list Element) (el : Element) :
  nearest haversine position lat0 lon0 els = Some el →
  ∃ l1 l2 a b,
    els = l1 ++ el :: l2
    ∧ position el = Some (a, b)
    ∧ (haversine lat0 lon0 a b < PROXIMITY_KM)%Q
    ∧ (∀ el' a' b', el' ∈ l1 → position el' = Some (a', b') →
         (haversine lat0 lon0 a b < haversine lat0 lon0 a' b')%Q)
    ∧ (∀ el' a' b', el' ∈ l2 → position el' = Some (a', b') →
         (haversine lat0 lon0 a b <= haversine lat0 lon0 a' b')%Q).
Proof.
  unfold nearest. intros Hn. pose proof (SearchInv_fold els) as Hinv.
  unfold SearchInv in Hinv. rewrite Hn in Hinv.
  destruct Hinv as (l1 & l2 & a & b & ? & ? & ? & ? & ? & ?).
  by exists l1, l2, a, b.
Qed.

Lemma nearest_None_noneWithin (els : list Element) :
  nearest haversine position lat0 lon0 els = None
  ↔ noneWithin haversine position lat0 lon0 els.
Proof.
  unfold nearest, noneWithin. pose proof (SearchInv_fold els) as Hinv.
  unfold SearchInv in Hinv.
  destruct (fst (fold_left _ els _)) as [el|] eqn:Hn.
  - destruct Hinv as (l1 & l2 & a & b & -> & Hpos & _ & Hlt & _).
    split; [done|]. intros Hall. exfalso.
    assert (PROXIMITY_KM <= haversine lat0 lon0 a b)%Q; [|lra].
    apply (Hall el); [|done]. apply elem_of_app. right. by left.
  - by destruct Hinv as [_ Hall].
Qed.

(** X3. A search returns nothing exactly when no feature with a usable
    position is strictly closer than 1.0 km: a feature at 1.0 km or more
    is never matched, and a usable one closer than that is never missed. *)
Theorem nearest_none_iff (els : list Element) :
  nearest haversine position lat0 lon0 els = None
  ↔ noneWithin haversine position lat0 lon0 els.
Proof. apply nearest_None_noneWithin. Qed.

End SearchResult.

Lemma nearest_is_first_closest_witness :
  nearest planarKm riverPosition (1 / 1000) 10 [mixedRiver; equatorRiver]
  = Some equatorRiver
  ∧ ∃ l1 l2 a b,
      [mixedRiver; equatorRiver] = l1 ++ equatorRiver :: l2
      ∧ riverPosition equatorRiver = Some (a, b)
      ∧ (planarKm (1 / 1000) 10 a b < PROXIMITY_KM)%Q
      ∧ (∀ el' a' b', el' ∈ l1 → riverPosition el' = Some (a', b') →
           (planarKm (1 / 1000) 10 a b < planarKm (1 / 1000) 10 a' b')%Q)
      ∧ (∀ el' a' b', el' ∈ l2 → riverPosition el' = Some (a', b') →
           (planarKm (1 / 1000) 10 a b <= planarKm (1 / 1000) 10 a' b')%Q).
Proof.
  assert (nearest planarKm riverPosition (1 / 1000) 10 [mixedRiver; equatorRiver]
          = Some equatorRiver) as Hn by (vm_compute; reflexivity).
  split; [exact Hn|].
  exact (nearest_is_first_closest planarKm riverPosition (1 / 1000) 10
           [mixedRiver; equatorRiver] equatorRiver Hn).
Defined.

(** ** What the classifier decides *)

Section ClassifierFacts.

Variable haversine : Q → Q → Q → Q → Q.

(** X4. A marker gets no entry exactly when no pass, no river and no town
    with a usable position is strictly closer than 1.0 km to its point. *)
Theorem no_entry_iff_nothing_within_threshold (points : list Point)
    (fs : Features) (idx : nat) (p : Point) :
  points !! idx = Some p →
  classifyMarker haversine points fs idx = Some None
  ↔ noneWithin haversine nodePosition (lat p) (lon p) (passes fs)
    ∧ noneWithin haversine riverPosition (lat p) (lon p) (rivers fs)
    ∧ noneWithin haversine nodePosition (lat p) (lon p) (towns fs).
Proof.
  intros Hp. rewrite <- !nearest_None_noneWithin.
  unfold classifyMarker, isPeak. rewrite Hp. cbn [mbind option_bind].
  destruct (nearest _ nodePosition _ _ (passes fs)); [split; [done | by intros [? _]]|].
  destruct (nearest _ riverPosition _ _ (rivers fs));
    [split; [done | by intros (_ & ? & _)]|].
  destruct (nearest _ nodePosition _ _ (towns fs));
    [split; [done | by intros (_ & _ & ?)]|].
  done.
Qed.

(** X5. Precedence read backwards: an entry of type river means that no
    usable pass is within the threshold; an entry of type town means that
    neither a usable pass nor a usable river is, and that the marker's
    point is not a local elevation peak. *)
Theorem entry_type_excludes_higher_precedence (points : list Point)
    (fs : Features) (idx : nat) (p : Point) (e : Entry) :
  points !! idx = Some p →
  classifyMarker haversine points fs idx = Some (Some e) →
  (type e = river →
     noneWithin haversine nodePosition (lat p) (lon p) (passes fs))
  ∧ (type e = town →
       noneWithin haversine nodePosition (lat p) (lon p) (passes fs)
       ∧ noneWithin haversine riverPosition (lat p) (lon p) (rivers fs)
       ∧ isPeak points idx = Some false).
Proof.
  intros Hp. rewrite <- !nearest_None_noneWithin.
  unfold classifyMarker. rewrite Hp. cbn [mbind option_bind].
  destruct (nearest _ nodePosition _ _ (passes fs)).
  { intros [= <-]. by split. }
  destruct (nearest _ riverPosition _ _ (rivers fs)).
  { intros [= <-]. by split. }
  destruct (nearest _ nodePosition _ _ (towns fs)); [|done].
  destruct (isPeak points idx) as [[|]|]; cbn [mbind option_bind];
    intros [= <-]; by split.
Qed.

End ClassifierFacts.

Lemma no_entry_iff_nothing_within_threshold_witness :
  [lonePoint] !! 0 = Some lonePoint
  ∧ (classifyMarker planarKm [lonePoint]
       {| passes := [equatorPass]; rivers := [equatorRiver]; towns := [] |} 0
     = Some None
     ↔ noneWithin planarKm nodePosition (lat lonePoint) (lon lonePoint) [equatorPass]
       ∧ noneWithin planarKm riverPosition (lat lonePoint) (lon lonePoint)
           [equatorRiver]
       ∧ noneWithin planarKm nodePosition (lat lonePoint) (lon lonePoint) []).
Proof.
  split; [reflexivity|].
  exact (no_entry_iff_nothing_within_threshold planarKm [lonePoint]
           {| passes := [equatorPass]; rivers := [equatorRiver]; towns := [] |}
           0 lonePoint eq_refl).
Defined.

Lemma entry_type_excludes_higher_precedence_witness :
  [equatorPoint] !! 0 = Some equatorPoint
  ∧ classifyMarker planarKm [equatorPoint]
      {| passes := []; rivers := [equatorRiver]; towns := [] |} 0
    = Some (Some {| type := river; name := "Rio" |})
  ∧ noneWithin planarKm nodePosition (lat equatorPoint) (lon equatorPoint) [].
Proof.
  assert (classifyMarker planarKm [equatorPoint]
            {| passes := []; rivers := [equatorRiver]; towns := [] |} 0
          = Some (Some {| type := river; name := "Rio" |})) as Hc
    by (vm_compute; reflexivity).
  split_and!; [reflexivity | exact Hc |].
  exact (proj1 (entry_type_excludes_higher_precedence planarKm [equatorPoint]
                  {| passes := []; rivers := [equatorRiver]; towns := [] |}
                  0 equatorPoint _ eq_refl Hc) eq_refl).
Defined.

(** ** The sampler against the cumulative distances of the route *)

Lemma sorted_bounded_length (l : list nat) (m n : nat) :
  StronglySorted lt l → Forall (λ j, m ≤ j < n) l → length l ≤ n - m.
Proof.
  intros Hs. revert m. induction Hs as [|x l Hs IH Hall]; intros m Hb; simpl.
  - lia.
  - apply Forall_cons in Hb as [Hx Hb].
    assert (length l ≤ n - S x); [|lia].
    apply IH. rewrite Forall_forall in *. intros j Hj.
    specialize (Hall j Hj). specialize (Hb j Hj). lia.
Qed.

Section SamplerDistances.

Variable haversine : Q → Q → Q → Q → Q.

Lemma cumulativeLoop_length (lats lons : list Q) (prevLat : Q)
    (prevLon : option Q) (t : option Q) :
  length (cumulativeLoop haversine prevLat prevLon lats lons t) = length lats.
Proof.
  revert lons prevLat prevLon t.
  induction lats as [|la lats IH]; intros; simpl; [done|]. by rewrite IH.
Qed.

Lemma cumulativeLoop_lookup_S (rest : list Point) (prev : Point) (t : Q)
    (i : nat) (a b : Point) (d : Q) :
  (prev :: rest) !! i = Some a → (prev :: rest) !! S i = Some b →
  (Some t :: cumulativeLoop haversine (lat prev) (Some (lon prev))
               (lat <$> rest) (lon <$> rest) (Some t)) !! i = Some (Some d) →
  (Some t :: cumulativeLoop haversine (lat prev) (Some (lon prev))
               (lat <$> rest) (lon <$> rest) (Some t)) !! S i
  = Some (Some (d + haversine (lat a) (lon a) (lat b) (lon b))%Q).
Proof.
  revert prev t i. induction rest as [|x rest IH]; intros prev t i Ha Hb Hd.
  - by destruct i.
  - destruct i as [|i]; simpl in *.
    + by simplify_eq.
    + by apply (IH x _ i).
Qed.

(** Along the route, each cumulative distance is the previous one plus
    the distance between the two points. *)
Lemma cumulative_lookup_S (points : list Point) (i : nat) (a b : Point) (d : Q) :
  points !! i = Some a → points !! S i = Some b →
  calculateCumulativeDistances haversine (lat <$> points) (lon <$> points) !! i
    = Some (Some d) →
  calculateCumulativeDistances haversine (lat <$> points) (lon <$> points) !! S i
  = Some (Some (d + haversine (lat a) (lon a) (lat b) (lon b))%Q).
Proof.
  destruct points as [|p0 rest]; [done|]. apply cumulativeLoop_lookup_S.
Qed.

Lemma emit_snoc (st : Sampler) (km : Z) (i : nat) (c : Q) :
  length (kmMarkers st) = length (markerIndices st) →
  emit {| kmMarkers := kmMarkers st ++ [km];
          markerIndices := markerIndices st ++ [i];
          cumDist := c |}
  = emit st ++ [(km, i)].
Proof. intros Hlen. unfold emit. simpl. by rewrite zip_with_app. Qed.

Lemma sampleLoop_marks (points : list Point) (rest : list Point) (prev : Point)
    (i : nat) (st : Sampler) :
  points !! i = Some prev → drop (S i) points = rest →
  calculateCumulativeDistances haversine (lat <$> points) (lon <$> points) !! i
    = Some (Some (cumDist st)) →
  MarksAt (calculateCumulativeDistances haversine (lat <$> points) (lon <$> points)) st →
  Forall (Z.le 0) (kmMarkers st) →
  length (kmMarkers st) = length (markerIndices st) →
  MarksAt (calculateCumulativeDistances haversine (lat <$> points) (lon <$> points))
    (sampleLoop haversine prev rest (S i) st)
  ∧ calculateCumulativeDistances haversine (lat <$> points) (lon <$> points)
      !! (i + length rest)
    = Some (Some (cumDist (sampleLoop haversine prev rest (S i) st))).
Proof.
  revert prev i st. induction rest as [|x rest IH];
    intros prev i st Hprev Hdrop Hd Hmarks Hpos Hlen; simpl.
  - by rewrite Nat.add_0_r.
  - assert (points !! S i = Some x) as Hx.
    { pose proof (f_equal (λ l, l !! 0) Hdrop) as H. simpl in H.
      by rewrite lookup_drop, Nat.add_0_r in H. }
    assert (drop (S (S i)) points = rest) as Hdrop'.
    { pose proof (f_equal (drop 1) Hdrop) as H.
      by rewrite drop_drop, Nat.add_1_r in H. }
    pose proof (cumulative_lookup_S points i prev x _ Hprev Hx Hd) as Hd'.
    replace (i + S (length rest)) with (S i + length rest) by lia.
    apply IH; try done.
    + unfold sampleStep. by destruct (numGe _ _).
    + unfold sampleStep. destruct (numGe _ _) eqn:Hge; [|done].
      apply numGe_le in Hge. unfold SAMPLE_EVERY_KM in Hge.
      assert (0 ≤ default 0 (last (kmMarkers st)))%Z as Hlast.
      { destruct (last (kmMarkers st)) as [y|] eqn:Hl; [|done]. simpl.
        apply last_Some_elem_of in Hl. rewrite Forall_forall in Hpos.
        by apply Hpos. }
      intros j km idx. rewrite emit_snoc by done.
      intros Hj. apply lookup_app_Some in Hj as [Hj | [_ Hj]].
      * by apply (Hmarks j).
      * apply list_lookup_singleton_Some in Hj as [_ [= <- <-]].
        eexists. split_and!; [done | done |]. intros _.
        assert (0 <= inject_Z (default 0%Z (last (kmMarkers st))))%Q.
        { change 0%Q with (inject_Z 0). by rewrite <- Zle_Qle. }
        lra.
    + unfold sampleStep. destruct (numGe _ _) eqn:Hge; simpl; [|done].
      apply Forall_app. split; [done|]. repeat constructor.
      apply numGe_le in Hge. unfold SAMPLE_EVERY_KM in Hge.
      apply Math_round_above in Hge.
      destruct (last (kmMarkers st)) as [y|] eqn:Hl; simpl in Hge; [|lia].
      apply last_Some_elem_of in Hl. rewrite Forall_forall in Hpos.
      specialize (Hpos y Hl). lia.
    + unfold sampleStep. destruct (numGe _ _); simpl; [|done].
      by rewrite !length_app, Hlen.
Qed.

Lemma sampleMarkers_marks (points : list Point) :
  MarksAt (calculateCumulativeDistances haversine (lat <$> points) (lon <$> points))
    (sampleMarkers haversine points)
  ∧ last (calculateCumulativeDistances haversine (lat <$> points) (lon <$> points))
    = Some (Some (cumDist (sampleMarkers haversine points))).
Proof.
  assert (MarksAt (calculateCumulativeDistances haversine (lat <$> points)
                     (lon <$> points)) initSampler) as Hinit.
  { intros j km idx Hj. destruct j as [|j]; [|done].
    injection Hj as <- <-. exists 0%Q. split_and!; [done | done | lia]. }
  destruct points as [|p0 rest]; [done|].
  destruct (sampleLoop_marks (p0 :: rest) rest p0 0 initSampler) as [Hm Hl];
    try done; try (by repeat constructor).
  split; [done|]. rewrite last_lookup.
  replace (pred (length _)) with (0 + length rest); [done|].
  simpl. by rewrite cumulativeLoop_length, length_fmap.
Qed.

(** X6. The distance the sampler has accumulated at the end of the track
    is the total distance of the route as the elevation profile computes
    it, the last of its cumulative distances. *)
Theorem sampler_distance_is_route_length (points : list Point) :
  last (calculateCumulativeDistances haversine (lat <$> points) (lon <$> points))
  = Some (Some (cumDist (sampleMarkers haversine points))).
Proof. apply sampleMarkers_marks. Qed.

(** X7. Every marker sits where the route's cumulative distance, rounded
    to the nearest kilometre, is the marker's kilometre value; and every
    marker but the initial one sits at a cumulative distance of at least
    1 km. *)
Theorem marker_km_is_rounded_route_distance (points : list Point) (j : nat)
    (km : Z) (idx : nat) :
  emit (sampleMarkers haversine points) !! j = Some (km, idx) →
  ∃ d,
    calculateCumulativeDistances haversine (lat <$> points) (lon <$> points) !! idx
      = Some (Some d)
    ∧ km = Math_round d
    ∧ (0 < idx → (1 <= d)%Q).
Proof. apply sampleMarkers_marks. Qed.

(** X8. A route whose cumulative distance never reaches 1 km gets the
    initial marker only. *)
Theorem short_route_has_only_marker_zero (points : list Point) :
  (∀ d, Some d ∈ calculateCumulativeDistances haversine (lat <$> points)
                   (lon <$> points) → (d < 1)%Q) →
  emit (sampleMarkers haversine points) = [(0%Z, 0)].
Proof.
  intros Hshort.
  assert (∃ i, SamplerInv i (sampleMarkers haversine points))
    as (i & Hk0 & Hi0 & Hlen & _ & His & _).
  { destruct points as [|p0 rest].
    - exists 1. apply SamplerInv_init.
    - exists (length (p0 :: rest)). by apply sampleMarkers_inv. }
  destruct (sampleMarkers_marks points) as [Hmarks _].
  unfold emit in *.
  destruct (kmMarkers _) as [|k0 [|k1 ks]] eqn:Hk;
    destruct (markerIndices _) as [|i0 [|i1 is']] eqn:Hi; simpl in *;
    try done; [by simplify_eq|].
  exfalso. injection Hk0 as ->. injection Hi0 as ->.
  destruct (Hmarks 1 k1 i1) as (d & Hd & _ & Hge).
  { unfold emit. by rewrite Hk, Hi. }
  apply StronglySorted_inv in His as [_ His]. apply Forall_cons in His as [Hi1 _].
  specialize (Hge Hi1).
  assert (d < 1)%Q; [|lra]. apply Hshort. by eapply list_elem_of_lookup_2.
Qed.

End SamplerDistances.

Lemma marker_km_is_rounded_route_distance_witness :
  emit (sampleMarkers planarKm shortTrack) !! 1 = Some (2%Z, 1)
  ∧ ∃ d,
      calculateCumulativeDistances planarKm (lat <$> shortTrack) (lon <$> shortTrack)
        !! 1 = Some (Some d)
      ∧ 2%Z = Math_round d
      ∧ (0 < 1 → (1 <= d)%Q).
Proof.
  assert (emit (sampleMarkers planarKm shortTrack) !! 1 = Some (2%Z, 1)) as Hj
    by (vm_compute; reflexivity).
  split; [exact Hj|].
  exact (marker_km_is_rounded_route_distance planarKm shortTrack 1 2 1 Hj).
Defined.

Lemma short_route_has_only_marker_zero_witness :
  (∀ d, Some d ∈ calculateCumulativeDistances planarKm (lat <$> strollTrack)
                   (lon <$> strollTrack) → (d < 1)%Q)
  ∧ emit (sampleMarkers planarKm strollTrack) = [(0%Z, 0)].
Proof.
  assert (∀ d, Some d ∈ calculateCumulativeDistances planarKm (lat <$> strollTrack)
                          (lon <$> strollTrack) → (d < 1)%Q) as Hshort.
  { intros d Hd. simpl in Hd.
    apply elem_of_cons in Hd as [[= ->]|Hd]; [reflexivity|].
    apply list_elem_of_singleton in Hd as [= ->]. vm_compute. reflexivity. }
  split; [exact Hshort|].
  exact (short_route_has_only_marker_zero planarKm strollTrack Hshort).
Defined.

(** ** What the filter lets through *)

Lemma fold_left_preserves_in {S A} (P : S → Prop) (step : S → A → S)
    (l : list A) (st : S) :
  P st → (∀ st x, x ∈ l → P st → P (step st x)) → P (fold_left step l st).
Proof.
  revert st. induction l as [|x l IH]; intros st Hst Hstep; simpl; [done|].
  apply IH.
  - apply Hstep; [by left | done].
  - intros st' y Hy. apply Hstep. by right.
Qed.

(** Recording a properly named classified marker in an unclaimed block
    keeps the filter in a good state. *)
Lemma Good_insert (kms : list Z) (summary : gmap Z Entry) (st st' : FilterState)
    (km : Z) (e : Entry) :
  Good kms summary st →
  summary !! km = Some e → km ∈ kms → isUnnamed (name e) = false →
  blockOf km ∉ blockHas st →
  filtered st' = <[km := e]> (filtered st) →
  blockHas st' = {[blockOf km]} ∪ blockHas st →
  Good kms summary st'.
Proof.
  intros (Hs & Hc & Ho) Hkm Hin Hname Hfree Hf Hb. split_and!.
  - intros k e' Hk. rewrite Hf in Hk.
    destruct (decide (km = k)) as [<-|Hne].
    + rewrite lookup_insert_eq in Hk. by simplify_eq.
    + rewrite lookup_insert_ne in Hk by done. by apply Hs.
  - intros k Hk. rewrite Hb. rewrite Hf in Hk.
    destruct (decide (km = k)) as [<-|Hne].
    + by apply elem_of_union_l, elem_of_singleton.
    + rewrite lookup_insert_ne in Hk by done. by apply elem_of_union_r, Hc.
  - intros k1 k2 Hk1 Hk2 Hblock. rewrite Hf in Hk1, Hk2.
    destruct (decide (km = k1)) as [<-|Hne1];
      destruct (decide (km = k2)) as [<-|Hne2]; try done.
    + rewrite lookup_insert_ne in Hk2 by done.
      exfalso. apply Hfree. rewrite Hblock. by apply Hc.
    + rewrite lookup_insert_ne in Hk1 by done.
      exfalso. apply Hfree. rewrite <- Hblock. by apply Hc.
    + rewrite lookup_insert_ne in Hk1, Hk2 by done. by apply Ho.
Qed.

Lemma pass1Step_accepts (summary : gmap Z Entry) (st : FilterState) (km : Z) :
  pass1Step summary st km = st
  ∨ ∃ entry, summary !! km = Some entry ∧ isUnnamed (name entry) = false
             ∧ (blockOf km ∉ blockHas st)
             ∧ pass1Step summary st km = accept km entry st.
Proof.
  unfold pass1Step. destruct (summary !! km) as [entry|]; [|by left].
  destruct (isUnnamed (name entry)) eqn:Hn; [by left|].
  destruct (bool_decide (blockOf km ∈ blockHas st)) eqn:Hb; [by left|].
  apply bool_decide_eq_false_1 in Hb.
  destruct (bool_decide (type entry = pass)); [|by left].
  right. by exists entry.
Qed.

Lemma pass2Step_accepts (summary : gmap Z Entry) (st : FilterState) (km : Z) :
  pass2Step summary st km = st
  ∨ ∃ entry, summary !! km = Some entry ∧ isUnnamed (name entry) = false
             ∧ (blockOf km ∉ blockHas st)
             ∧ pass2Step summary st km = accept km entry st.
Proof.
  unfold pass2Step. destruct (summary !! km) as [entry|]; [|by left].
  destruct (negb (bool_decide (type entry = river))); [by left|].
  destruct (isUnnamed (name entry)) eqn:Hn; [by left|].
  destruct (bool_decide (blockOf km ∈ blockHas st)) eqn:Hb; [by left|].
  apply bool_decide_eq_false_1 in Hb.
  destruct (bool_decide (entryKey entry ∈ seen st)); [by left|].
  right. by exists entry.
Qed.

Lemma pass12_Good (kms : list Z) (summary : gmap Z Entry) :
  Good kms summary (pass2 kms summary (pass1 kms summary)).
Proof.
  unfold pass2, pass1.
  apply (fold_left_preserves_in (Good kms summary)).
  - apply (fold_left_preserves_in (Good kms summary)).
    + split_and!.
      * intros k e H. simpl in H. by rewrite lookup_empty in H.
      * intros k [e H]. simpl in H. by rewrite lookup_empty in H.
      * intros k1 k2 [e H]. simpl in H. by rewrite lookup_empty in H.
    + intros st km Hin Hst.
      destruct (pass1Step_accepts summary st km)
        as [->|(entry & Hkm & Hname & Hfree & ->)]; [done|].
      by eapply Good_insert.
  - intros st km Hin Hst.
    destruct (pass2Step_accepts summary st km)
      as [->|(entry & Hkm & Hname & Hfree & ->)]; [done|].
    by eapply Good_insert.
Qed.

Lemma collectTowns_sound (kms : list Z) (summary : gmap Z Entry)
    (towns : list Element) (st : FilterState) :
  SoundCandidates kms summary (collectTowns kms summary towns st).
Proof.
  unfold collectTowns. apply (fold_left_preserves_in (SoundCandidates kms summary)).
  - intros b c H. by rewrite lookup_empty in H.
  - intros bt km Hin Hbt. unfold collectStep.
    destruct (summary !! km) as [entry|] eqn:Hkm; [|done].
    destruct (negb (bool_decide (type entry = town))); [done|].
    destruct (isUnnamed (name entry)) eqn:Hname; [done|].
    destruct (bool_decide (blockOf km ∈ blockHas st)); [done|].
    assert (SoundCandidates kms summary
              (<[blockOf km := {| cand_km := km; cand_entry := entry;
                                  cand_pop := townPopulation towns entry |}]> bt))
      as Hins.
    { intros b c Hbc. destruct (decide (blockOf km = b)) as [<-|Hne].
      - rewrite lookup_insert_eq in Hbc. by simplify_eq.
      - rewrite lookup_insert_ne in Hbc by done. by apply Hbt. }
    simpl. destruct (bt !! blockOf km); [|done]. by destruct (popGt _ _).
Qed.

Lemma acceptStep_Good (kms : list Z) (summary : gmap Z Entry)
    (bt : gmap Z TownCand) (st : FilterState) (b : Z) :
  SoundCandidates kms summary bt → Good kms summary st →
  Good kms summary (acceptStep bt st b).
Proof.
  intros Hbt Hst. unfold acceptStep.
  destruct (bt !! b) as [c|] eqn:Hc; [|done].
  destruct (bool_decide (b ∈ blockHas st)) eqn:Hb; [done|].
  apply bool_decide_eq_false_1 in Hb.
  destruct (Hbt b c Hc) as (Hkm & Hin & Hname & Hblock).
  destruct (bool_decide (entryKey (cand_entry c) ∈ seen st)).
  - destruct Hst as (Hs & Hcl & Ho). split_and!; simpl; [done | | done].
    intros k Hk. by apply elem_of_union_r, Hcl.
  - eapply (Good_insert kms summary st _ (cand_km c) (cand_entry c));
      simpl; try done; by rewrite Hblock.
Qed.

Lemma pass3_Good (kms : list Z) (summary : gmap Z Entry) (towns : list Element) :
  Good kms summary
    (pass3 kms summary towns (pass2 kms summary (pass1 kms summary))).
Proof.
  unfold pass3, acceptTowns. apply fold_left_preserves; [apply pass12_Good|].
  intros st b Hst. apply acceptStep_Good; [|done]. apply collectTowns_sound.
Qed.

Lemma collapse_submap (f : gmap Z Entry) (k : Z) (e : Entry) :
  collapse f !! k = Some e → f !! k = Some e.
Proof. rewrite collapse_lookup. by destruct (decide _). Qed.

(** X9. Every entry of the result is the entry the classifier recorded
    for one of the markers, under that marker's kilometre value: the filter
    invents nothing and moves nothing. *)
Theorem result_entries_are_classified_markers (kms : list Z)
    (summary : gmap Z Entry) (towns : list Element) (k : Z) (e : Entry) :
  filterStage kms summary towns !! k = Some e →
  summary !! k = Some e ∧ k ∈ kms.
Proof.
  intros Hk%collapse_submap.
  destruct (pass3_Good kms summary towns) as (Hs & _ & _).
  destruct (Hs k e Hk) as (? & ? & _). done.
Qed.

(** X10. No entry of the result has a name that contains "unnamed" in
    whatever letter case: a marker classified from a feature without a
    name never reaches the result. *)
Theorem result_has_no_placeholder_name (kms : list Z)
    (summary : gmap Z Entry) (towns : list Element) (k : Z) (e : Entry) :
  filterStage kms summary towns !! k = Some e →
  isUnnamed (name e) = false.
Proof.
  intros Hk%collapse_submap.
  destruct (pass3_Good kms summary towns) as (Hs & _ & _).
  by destruct (Hs k e Hk) as (_ & _ & ?).
Qed.

(** X11. The result holds at most one key per 10 km block. *)
Theorem result_has_one_entry_per_block (kms : list Z)
    (summary : gmap Z Entry) (towns : list Element) (k1 k2 : Z) :
  is_Some (filterStage kms summary towns !! k1) →
  is_Some (filterStage kms summary towns !! k2) →
  blockOf k1 = blockOf k2 → k1 = k2.
Proof.
  intros [e1 H1%collapse_submap] [e2 H2%collapse_submap].
  destruct (pass3_Good kms summary towns) as (_ & _ & Ho).
  apply Ho; by eauto.
Qed.

(** X12. The collapse only removes keys, and it never removes the
    largest one: a result is empty only when nothing was accepted. *)
Theorem collapse_keeps_largest_key (f : gmap Z Entry) :
  (∀ k e, collapse f !! k = Some e → f !! k = Some e)
  ∧ (∀ k e, f !! k = Some e → (∀ k', is_Some (f !! k') → (k' ≤ k)%Z) →
       collapse f !! k = Some e).
Proof.
  split; [apply collapse_submap|].
  intros k e Hk Hmax. rewrite collapse_lookup.
  rewrite decide_False; [done|].
  intros (i & k' & Hi & Hi' & _)%elem_of_marked.
  pose proof (StronglySorted_lookup_lt Z.lt _ i (S i) k k'
                (sortedKeys_sorted f) Hi Hi').
  assert (k' ≤ k)%Z; [|lia].
  apply Hmax, elem_of_sortedKeys. by eapply list_elem_of_lookup_2.
Qed.

Lemma result_entries_are_classified_markers_witness :
  filterStage fiveKmMarkers namesakeSummary [] !! 5%Z
  = Some {| type := pass; name := "Gotthard" |}
  ∧ namesakeSummary !! 5%Z = Some {| type := pass; name := "Gotthard" |}
  ∧ 5%Z ∈ fiveKmMarkers.
Proof.
  assert (filterStage fiveKmMarkers namesakeSummary [] !! 5%Z
          = Some {| type := pass; name := "Gotthard" |}) as Hk
    by (vm_compute; reflexivity).
  split; [exact Hk|].
  exact (result_entries_are_classified_markers fiveKmMarkers namesakeSummary []
           5 _ Hk).
Defined.

Lemma result_has_no_placeholder_name_witness :
  filterStage fiveKmMarkers twinSummary twinTowns !! 5%Z
  = Some {| type := town; name := "Neustadt" |}
  ∧ isUnnamed "Neustadt" = false.
Proof.
  assert (filterStage fiveKmMarkers twinSummary twinTowns !! 5%Z
          = Some {| type := town; name := "Neustadt" |}) as Hk
    by (vm_compute; reflexivity).
  split; [exact Hk|].
  exact (result_has_no_placeholder_name fiveKmMarkers twinSummary twinTowns
           5 _ Hk).
Defined.

Lemma result_has_one_entry_per_block_witness :
  is_Some (filterStage fiveKmMarkers namesakeSummary [] !! 15%Z)
  ∧ blockOf 15 = blockOf 15
  ∧ 15%Z = 15%Z.
Proof.
  assert (is_Some (filterStage fiveKmMarkers namesakeSummary [] !! 15%Z)) as Hk
    by (vm_compute; eauto).
  split_and!; [exact Hk | reflexivity |].
  exact (result_has_one_entry_per_block fiveKmMarkers namesakeSummary []
           15 15 Hk Hk eq_refl).
Defined.

Lemma collapse_keeps_largest_key_witness :
  namesakeSummary !! 15%Z = Some {| type := river; name := "Gotthard" |}
  ∧ (∀ k', is_Some (namesakeSummary !! k') → (k' ≤ 15)%Z)
  ∧ collapse namesakeSummary !! 15%Z = Some {| type := river; name := "Gotthard" |}.
Proof.
  assert (namesakeSummary !! 15%Z = Some {| type := river; name := "Gotthard" |})
    as Hk by (vm_compute; reflexivity).
  assert (∀ k', is_Some (namesakeSummary !! k') → (k' ≤ 15)%Z) as Hmax.
  { intros k' [e He]. unfold namesakeSummary in He.
    apply lookup_insert_Some in He as [[<- _]|[_ He]]; [lia|].
    apply lookup_singleton_Some in He as [<- _]. lia. }
  split_and!; [exact Hk | exact Hmax |].
  exact (proj2 (collapse_keeps_largest_key namesakeSummary) 15%Z _ Hk Hmax).
Defined.

(** ** Passes come first in their block *)

Lemma pass1Step_pass (summary : gmap Z Entry) (st : FilterState) (km : Z) :
  pass1Step summary st km = st
  ∨ ∃ entry, summary !! km = Some entry ∧ namedPass summary km
             ∧ pass1Step summary st km = accept km entry st.
Proof.
  unfold pass1Step. destruct (summary !! km) as [entry|] eqn:Hkm; [|by left].
  destruct (isUnnamed (name entry)) eqn:Hn; [by left|].
  destruct (bool_decide (blockOf km ∈ blockHas st)); [by left|].
  destruct (bool_decide (type entry = pass)) eqn:Ht; [|by left].
  apply bool_decide_eq_true_1 in Ht.
  right. exists entry. split_and!; [done | by exists entry | done].
Qed.

Lemma pass1_PassBlocks (summary : gmap Z Entry) (l visited : list Z)
    (st : FilterState) :
  PassBlocks summary visited st →
  PassBlocks summary (visited ++ l) (fold_left (pass1Step summary) l st).
Proof.
  revert visited st. induction l as [|km l IH]; intros visited st Hst; simpl.
  - by rewrite app_nil_r.
  - replace (visited ++ km :: l) with ((visited ++ [km]) ++ l)
      by (by rewrite <- app_assoc).
    apply IH. intros b Hb.
    destruct (pass1Step_pass summary st km) as [Heq|(entry & Hkm & Hnp & Heq)];
      rewrite Heq in Hb.
    + destruct (Hst b Hb) as (k & Hk & ? & ?). exists k.
      split_and!; [|done|done]. apply elem_of_app. by left.
    + unfold accept in Hb. simpl in Hb.
      apply elem_of_union in Hb as [->%elem_of_singleton|Hb].
      * exists km. split_and!; [|done|done]. apply elem_of_app. right. by left.
      * destruct (Hst b Hb) as (k & Hk & ? & ?). exists k.
        split_and!; [|done|done]. apply elem_of_app. by left.
Qed.

Lemma pass1Step_Backed (summary : gmap Z Entry) (st : FilterState) (km : Z) :
  Backed summary st → Backed summary (pass1Step summary st km).
Proof.
  intros Hst.
  destruct (pass1Step_cases summary st km) as [->|(entry & Hkm & ->)]; [done|].
  by apply accept_Backed.
Qed.

Lemma pass1_keeps (summary : gmap Z Entry) (l : list Z) (st : FilterState)
    (k : Z) (e : Entry) :
  Backed summary st → filtered st !! k = Some e →
  filtered (fold_left (pass1Step summary) l st) !! k = Some e.
Proof.
  revert st. induction l as [|km l IH]; intros st Hst Hk; simpl; [done|].
  apply IH; [by apply pass1Step_Backed|].
  destruct (pass1Step_cases summary st km) as [->|(entry & Hkm & ->)]; [done|].
  by apply (accept_keeps summary).
Qed.

Lemma acceptStep_keeps (bt : gmap Z TownCand) (st : FilterState) (b k : Z)
    (e : Entry) :
  (∀ b c, bt !! b = Some c → blockOf (cand_km c) = b) → Claimed st →
  filtered st !! k = Some e → filtered (acceptStep bt st b) !! k = Some e.
Proof.
  intros Hbt Hcl Hk. unfold acceptStep.
  destruct (bt !! b) as [c|] eqn:Hc; [|done].
  destruct (bool_decide (b ∈ blockHas st)) eqn:Hb; [done|].
  apply bool_decide_eq_false_1 in Hb.
  destruct (bool_decide _); simpl; [done|].
  rewrite lookup_insert_ne; [done|]. intros <-. apply Hb.
  rewrite <- (Hbt b c Hc). apply Hcl. by eauto.
Qed.

Lemma acceptTowns_keeps (bt : gmap Z TownCand) (bs : list Z) (st : FilterState)
    (k : Z) (e : Entry) :
  (∀ b c, bt !! b = Some c → blockOf (cand_km c) = b) → Claimed st →
  filtered st !! k = Some e →
  filtered (fold_left (acceptStep bt) bs st) !! k = Some e.
Proof.
  intros Hbt. revert st. induction bs as [|b bs IH]; intros st Hcl Hk; simpl;
    [done|].
  apply IH; [|by apply acceptStep_keeps].
  destruct (decide (b ∈ blockHas st)) as [Hb|Hb].
  - unfold acceptStep. destruct (bt !! b); [|done].
    by rewrite bool_decide_eq_true_2.
  - by apply (acceptStep_Claimed bt Hbt).
Qed.

(** X13. Passes take precedence in their block: the first marker of a
    10 km block that is classified as a pass with a proper name is an
    entry of the outcome of the three passes, whatever rivers and towns
    the block holds. *)
Theorem first_named_pass_of_block_is_accepted (l1 l2 : list Z) (km : Z)
    (summary : gmap Z Entry) (towns : list Element) (e : Entry) :
  summary !! km = Some e → type e = pass → isUnnamed (name e) = false →
  (∀ k, k ∈ l1 → blockOf k = blockOf km → ¬ namedPass summary k) →
  filtered (pass3 (l1 ++ km :: l2) summary towns
              (pass2 (l1 ++ km :: l2) summary (pass1 (l1 ++ km :: l2) summary)))
    !! km = Some e.
Proof.
  intros Hkm Ht Hname Hfirst.
  set (kms := l1 ++ km :: l2).
  assert (filtered (pass1 kms summary) !! km = Some e) as H1.
  { unfold pass1, kms. rewrite fold_left_app. simpl.
    set (st := fold_left (pass1Step summary) l1 initFilter).
    assert (Backed summary st) as Hst.
    { apply fold_left_preserves; [|intros; by apply pass1Step_Backed].
      split_and!; simpl.
      - intros k e' H. by rewrite lookup_empty in H.
      - intros b H. by apply not_elem_of_empty in H.
      - intros key H. by apply not_elem_of_empty in H. }
    assert (blockOf km ∉ blockHas st) as Hfree.
    { intros Hb.
      destruct (pass1_PassBlocks summary l1 [] initFilter) with (b := blockOf km)
        as (k & Hk & Hblock & Hnp); [|done|].
      - intros b H. simpl in H. by apply not_elem_of_empty in H.
      - by apply (Hfirst k). }
    apply pass1_keeps; [by apply pass1Step_Backed|].
    unfold pass1Step. rewrite Hkm, Hname.
    rewrite bool_decide_eq_false_2 by done.
    rewrite bool_decide_eq_true_2 by done.
    unfold accept. simpl. apply lookup_insert_eq. }
  assert (filtered (pass2 kms summary (pass1 kms summary)) !! km = Some e) as H2.
  { unfold pass2. apply pass2_keeps; [apply pass1_Backed | done]. }
  unfold pass3, acceptTowns.
  pose proof (collectTowns_inv kms summary towns
                (pass2 kms summary (pass1 kms summary))) as Hcand.
  apply acceptTowns_keeps; [| |done].
  - intros b c Hc. by destruct (Hcand b c Hc).
  - apply pass12_inv.
Qed.

Lemma first_named_pass_of_block_is_accepted_witness :
  namesakeSummary !! 5%Z = Some {| type := pass; name := "Gotthard" |}
  ∧ filtered (pass3 ([0%Z] ++ 5%Z :: [10%Z; 15%Z]) namesakeSummary []
                (pass2 ([0%Z] ++ 5%Z :: [10%Z; 15%Z]) namesakeSummary
                   (pass1 ([0%Z] ++ 5%Z :: [10%Z; 15%Z]) namesakeSummary)))
      !! 5%Z = Some {| type := pass; name := "Gotthard" |}.
Proof.
  assert (namesakeSummary !! 5%Z = Some {| type := pass; name := "Gotthard" |})
    as Hkm by (vm_compute; reflexivity).
  split; [exact Hkm|].
  apply (first_named_pass_of_block_is_accepted [0%Z] [10%Z; 15%Z] 5
           namesakeSummary [] _ Hkm eq_refl eq_refl).
  intros k ->%list_elem_of_singleton _ (e & He & _). vm_compute in He. discriminate.
Defined.

(** ** Progress and completion *)

(** X14. For every non-empty track, and every lookup that fails or
    delivers a well-formed payload (the lookups of [Lookup]), the run
    completes: progress is reported once per marker, as (1, n),
    (2, n), ..., (n, n) in this order, where the number n of markers is at
    least 1 and at most the number of track points, and the completion
    callback follows, once. *)
Theorem progress_counts_up_then_done (haversine : Q → Q → Q → Q → Q)
    (lookup : BBox → Lookup) (points : list Point) :
  points ≠ [] →
  ∃ n result,
    1 ≤ n ≤ length points
    ∧ n = length (kmMarkers (sampleMarkers haversine points))
    ∧ analyzeGpxRouteWithProgress haversine lookup points true true
      = Completed (((λ m, Progress m n) <$> seq 1 n) ++ [Done result]).
Proof.
  intros Hne.
  destruct (engine_completes haversine lookup points true true Hne)
    as (_ & result & _ & _ & Heq).
  destruct (sampleMarkers_inv haversine points Hne)
    as (Hk0 & _ & Hlen & _ & His & Hlt).
  exists (length (kmMarkers (sampleMarkers haversine points))), result.
  split_and!; [| |done|done].
  - destruct (kmMarkers _); [done|]. simpl. lia.
  - rewrite Hlen.
    pose proof (sorted_bounded_length _ 0 (length points) His) as Hb.
    rewrite Nat.sub_0_r in Hb. apply Hb.
    eapply Forall_impl; [done|]. simpl. lia.
Qed.

Lemma progress_counts_up_then_done_witness :
  shortTrack ≠ []
  ∧ ∃ n result,
      1 ≤ n ≤ length shortTrack
      ∧ n = length (kmMarkers (sampleMarkers planarKm shortTrack))
      ∧ analyzeGpxRouteWithProgress planarKm (λ _, lookupThrows) shortTrack true true
        = Completed (((λ m, Progress m n) <$> seq 1 n) ++ [Done result]).
Proof.
  assert (shortTrack ≠ []) as Hne by done.
  split; [exact Hne|].
  exact (progress_counts_up_then_done planarKm (λ _, lookupThrows) shortTrack Hne).
Defined.

(** ** Ride statistics *)

Lemma calculateTimeStats_cons (p : TrackPoint) (rest : list TrackPoint) :
  calculateTimeStats (p :: rest)
  = Some {| startTime := tp_time p;
            endTime := tp_time (default p (last rest));
            timeDiffMs := tp_time (default p (last rest)) - tp_time p;
            timeDiffH := (tp_time (default p (last rest)) - tp_time p) `div` 3600000;
            timeDiffM := ((tp_time (default p (last rest)) - tp_time p)
                            `rem` 3600000) `div` 60000;
            timeDiffS := ((tp_time (default p (last rest)) - tp_time p)
                            `rem` 60000) `div` 1000 |}.
Proof.
  assert (last (p :: rest) = Some (default p (last rest))) as Hlast.
  { rewrite last_cons. by destruct (last rest). }
  unfold calculateTimeStats. cbn [head mbind option_bind]. rewrite Hlast.
  done.
Qed.

(** X15. The elapsed time is the last time stamp minus the first (an
    empty array raises a TypeError); when it is not negative, the hours,
    minutes and seconds reported split it exactly, down to the second:
    minutes and seconds lie in 0..59. *)
Theorem elapsed_time_splits_into_h_m_s :
  calculateTimeStats [] = None
  ∧ ∀ (p : TrackPoint) (rest : list TrackPoint), ∃ ts,
      calculateTimeStats (p :: rest) = Some ts
      ∧ timeDiffMs ts = (tp_time (default p (last rest)) - tp_time p)%Z
      ∧ ((0 ≤ timeDiffMs ts)%Z →
           (0 ≤ timeDiffH ts)%Z
           ∧ (0 ≤ timeDiffM ts < 60)%Z
           ∧ (0 ≤ timeDiffS ts < 60)%Z
           ∧ (timeDiffH ts * 3600 + timeDiffM ts * 60 + timeDiffS ts
              = timeDiffMs ts `div` 1000)%Z).
Proof.
  split; [done|]. intros p rest.
  rewrite calculateTimeStats_cons. eexists. split; [done|]. simpl.
  split; [done|]. intros Hpos.
  Z.to_euclidean_division_equations. lia.
Qed.

Lemma elapsed_time_splits_into_h_m_s_witness :
  ∃ ts,
    calculateTimeStats rideTrack = Some ts
    ∧ timeDiffMs ts = 80000%Z
    ∧ ((0 ≤ timeDiffMs ts)%Z →
         (0 ≤ timeDiffH ts)%Z
         ∧ (0 ≤ timeDiffM ts < 60)%Z
         ∧ (0 ≤ timeDiffS ts < 60)%Z
         ∧ (timeDiffH ts * 3600 + timeDiffM ts * 60 + timeDiffS ts
            = timeDiffMs ts `div` 1000)%Z).
Proof.
  exact (proj2 elapsed_time_splits_into_h_m_s
           {| tp_lat := 46; tp_lon := 7; tp_ele := Some 500%Q; tp_time := 0 |}
           (tail rideTrack)).
Defined.

Lemma dt_positive (t1 t2 : Z) :
  numLt 0 (inject_Z (t2 - t1) / 1000) = true → (0 < t2 - t1)%Z.
Proof.
  intros H%numLt_lt. rewrite Zlt_Qlt. change (inject_Z 0) with 0%Q.
  generalize dependent (inject_Z (t2 - t1)). intros x H.
  assert (x / 1000 == x * (1 # 1000))%Q as E by field. rewrite E in H. lra.
Qed.

Section StatsFacts.

Variable haversine : Q → Q → Q → Q → Q.
Variable th : Thresholds.

(** One pair of points adds its time difference to the ride time, or
    nothing; it adds nothing unless the difference is positive. *)
Lemma rideStep_time (prev p : TrackPoint) (acc : Q * Z) :
  snd (rideStep haversine th prev p acc) = snd acc
  ∨ (snd (rideStep haversine th prev p acc)
     = (snd acc + (tp_time p - tp_time prev))%Z
     ∧ (0 < tp_time p - tp_time prev)%Z).
Proof.
  unfold rideStep.
  destruct (numLt 0 (inject_Z (tp_time p - tp_time prev) / 1000)) eqn:Hdt.
  - apply dt_positive in Hdt. simpl.
    destruct (numLt (movingThreshold th) _); [by right|].
    destruct (numLt _ (stopThreshold th)); [by right | by left].
  - simpl. by left.
Qed.

Lemma rideLoop_time (rest : list TrackPoint) (prev : TrackPoint) (acc : Q * Z) :
  (snd acc ≤ snd (rideLoop haversine th prev rest acc))%Z
  ∧ (Sorted Z.le (tp_time <$> prev :: rest) →
     (snd (rideLoop haversine th prev rest acc)
      ≤ snd acc + (tp_time (default prev (last rest)) - tp_time prev))%Z).
Proof.
  revert prev acc. induction rest as [|p rest IH]; intros prev acc;
    cbn [rideLoop].
  - simpl. split; [lia|]. intros _. lia.
  - destruct (IH p (rideStep haversine th prev p acc)) as [Hlo Hhi].
    pose proof (rideStep_time prev p acc) as Hstep.
    split; [lia|]. rewrite fmap_cons. intros Hs.
    apply Sorted_inv in Hs as [Hs Hhd]. rewrite fmap_cons in Hhd.
    apply HdRel_inv in Hhd.
    specialize (Hhi Hs).
    assert (default prev (last (p :: rest)) = default p (last rest)) as ->.
    { rewrite last_cons. by destruct (last rest). }
    lia.
Qed.

(** X16. The ride time is never negative; and when the time stamps never
    go back, it is at most the elapsed time between the first and the last
    point, the one [calculateTimeStats] reports. *)
Theorem ride_time_within_elapsed_time (trkpts : list TrackPoint)
    (ts : TimeStats) (rs : RideStats) (es : ElevationStats) :
  statsOf haversine th trkpts = Some (ts, rs, es) →
  (0 ≤ rideTimeMs rs)%Z
  ∧ (Sorted Z.le (tp_time <$> trkpts) → (rideTimeMs rs ≤ timeDiffMs ts)%Z).
Proof.
  unfold statsOf. destruct trkpts as [|p rest]; [done|].
  rewrite calculateTimeStats_cons. cbn [mbind option_bind].
  intros [= <- <- <-]. simpl.
  destruct (rideLoop_time rest p (0%Q, 0%Z)) as [Hlo Hhi]. simpl in *.
  split; [done|]. intros Hs. specialize (Hhi Hs). lia.
Qed.

End StatsFacts.

Lemma ride_time_within_elapsed_time_witness :
  Sorted Z.le (tp_time <$> rideTrack)
  ∧ ∃ ts rs es,
      statsOf planarKm defaultThresholds rideTrack = Some (ts, rs, es)
      ∧ (0 ≤ rideTimeMs rs)%Z ∧ (rideTimeMs rs ≤ timeDiffMs ts)%Z.
Proof.
  assert (Sorted Z.le (tp_time <$> rideTrack)) as Hs
    by (repeat constructor; simpl; lia).
  split; [exact Hs|].
  destruct (statsOf planarKm defaultThresholds rideTrack) as [[[ts rs] es]|] eqn:H;
    [|vm_compute in H; discriminate].
  exists ts, rs, es. split; [reflexivity|].
  destruct (ride_time_within_elapsed_time planarKm defaultThresholds rideTrack
              ts rs es H) as [H0 H1].
  split; [exact H0 | exact (H1 Hs)].
Defined.

Lemma hours_positive (ms : Z) :
  numLt 0 (inject_Z ms / 3600000) = true ↔ (0 < ms)%Z.
Proof.
  rewrite numLt_lt, Zlt_Qlt. change (inject_Z 0) with 0%Q.
  generalize (inject_Z ms). intros x.
  assert (x / 3600000 == x * (1 # 3600000))%Q as -> by field. split; lra.
Qed.

Lemma speed_order (a r t : Q) :
  (0 <= a)%Q → (0 < r)%Q → (r <= t)%Q → (a / t <= a / r)%Q.
Proof.
  intros Ha Hr Hrt. apply Qle_shift_div_l; [lra|].
  assert (a / t * r == a * r / t)%Q as E by (field; lra). rewrite E.
  apply Qle_shift_div_r; [lra | nra].
Qed.

Section SpeedFacts.

Variable haversine : Q → Q → Q → Q → Q.
Variable th : Thresholds.
Hypothesis haversine_nonneg : ∀ a b c d, (0 <= haversine a b c d)%Q.

Lemma rideStep_dist (prev p : TrackPoint) (acc : Q * Z) :
  (fst acc <= fst (rideStep haversine th prev p acc))%Q.
Proof.
  assert (fst (rideStep haversine th prev p acc)
          = (fst acc + haversine (tp_lat prev) (tp_lon prev) (tp_lat p) (tp_lon p)
                       * 1000 / 1000)%Q) as ->.
  { unfold rideStep. by repeat case_match. }
  pose proof (haversine_nonneg (tp_lat prev) (tp_lon prev) (tp_lat p) (tp_lon p)).
  generalize dependent (haversine (tp_lat prev) (tp_lon prev) (tp_lat p) (tp_lon p)).
  intros h Hh. assert (h * 1000 / 1000 == h)%Q as -> by field. lra.
Qed.

Lemma rideLoop_dist (rest : list TrackPoint) (prev : TrackPoint) (acc : Q * Z) :
  (fst acc <= fst (rideLoop haversine th prev rest acc))%Q.
Proof.
  revert prev acc. induction rest as [|p rest IH]; intros prev acc;
    cbn [rideLoop]; [lra|].
  pose proof (rideStep_dist prev p acc). pose proof (IH p (rideStep haversine th prev p acc)).
  lra.
Qed.

(** X17. With distances that are never negative: the total distance is
    not negative; an elapsed time that is not positive gives an overall
    average speed of 0 and a ride time of 0 gives a moving average of 0
    (nothing is divided by zero); and whenever the ride time is positive
    and at most the elapsed time, the moving average is at least the
    overall average. *)
Theorem moving_average_at_least_overall (trkpts : list TrackPoint)
    (timeDiffMs : Z) :
  (0 <= totalDist (calculateDistanceAndRideTime haversine th trkpts timeDiffMs))%Q
  ∧ ((timeDiffMs ≤ 0)%Z →
       avgSpeedOverall (calculateDistanceAndRideTime haversine th trkpts timeDiffMs)
       = 0%Q)
  ∧ (rideTimeMs (calculateDistanceAndRideTime haversine th trkpts timeDiffMs) = 0%Z →
       avgSpeedMoving (calculateDistanceAndRideTime haversine th trkpts timeDiffMs)
       = 0%Q)
  ∧ ((0 < rideTimeMs (calculateDistanceAndRideTime haversine th trkpts timeDiffMs)
        ≤ timeDiffMs)%Z →
       (avgSpeedOverall (calculateDistanceAndRideTime haversine th trkpts timeDiffMs)
        <= avgSpeedMoving (calculateDistanceAndRideTime haversine th trkpts timeDiffMs))%Q).
Proof.
  assert (0 <= fst (rideSums haversine th trkpts))%Q as Hdist.
  { unfold rideSums. destruct trkpts as [|p rest]; [simpl; lra|].
    apply (rideLoop_dist rest p (0%Q, 0%Z)). }
  unfold calculateDistanceAndRideTime. simpl. split_and!.
  - done.
  - intros Hms. destruct (numLt 0 _) eqn:Hc; [|done].
    apply hours_positive in Hc. lia.
  - intros ->. done.
  - intros [Hr Hrt].
    rewrite (proj2 (hours_positive timeDiffMs)) by lia.
    rewrite (proj2 (hours_positive _) Hr).
    apply speed_order; [done | |].
    + apply numLt_lt, hours_positive. done.
    + rewrite Zle_Qle in Hrt.
      generalize dependent (inject_Z (snd (rideSums haversine th trkpts))).
      generalize (inject_Z timeDiffMs). intros t r Hrt.
      assert (r / 3600000 == r * (1 # 3600000))%Q as Er by field.
      assert (t / 3600000 == t * (1 # 3600000))%Q as Et by field.
      rewrite Er, Et. lra.
Qed.

End SpeedFacts.

Lemma planarKm_nonneg (a b c d : Q) : (0 <= planarKm a b c d)%Q.
Proof.
  unfold planarKm. pose proof (Qabs_nonneg (c - a)).
  pose proof (Qabs_nonneg (d - b)). lra.
Qed.

Lemma moving_average_at_least_overall_witness :
  (∀ a b c d, (0 <= planarKm a b c d)%Q)
  ∧ (0 < rideTimeMs (calculateDistanceAndRideTime planarKm defaultThresholds
                       rideTrack 80000) ≤ 80000)%Z
  ∧ (avgSpeedOverall (calculateDistanceAndRideTime planarKm defaultThresholds
                        rideTrack 80000)
     <= avgSpeedMoving (calculateDistanceAndRideTime planarKm defaultThresholds
                          rideTrack 80000))%Q.
Proof.
  assert (0 < rideTimeMs (calculateDistanceAndRideTime planarKm defaultThresholds
                            rideTrack 80000) ≤ 80000)%Z as Hr
    by (vm_compute; split; [reflexivity | discriminate]).
  split; [exact planarKm_nonneg|]. split; [exact Hr|].
  destruct (moving_average_at_least_overall planarKm defaultThresholds
              planarKm_nonneg rideTrack 80000) as (_ & _ & _ & H).
  exact (H Hr).
Defined.

(** ** Climb and descent *)

Lemma elevationStep_spec (prev p : TrackPoint) (acc : Q * Q) :
  (fst acc <= fst (elevationStep prev p acc))%Q
  ∧ (snd acc <= snd (elevationStep prev p acc))%Q
  ∧ (fst (elevationStep prev p acc) - snd (elevationStep prev p acc)
     == fst acc - snd acc + (eleOf p - eleOf prev))%Q.
Proof.
  unfold elevationStep.
  destruct (numLt 0 _) eqn:H1; [|destruct (numLt _ 0) eqn:H2]; simpl.
  - apply numLt_lt in H1. split_and!; lra.
  - apply numLt_lt in H2.
    assert (Qabs (eleOf p - eleOf prev) == - (eleOf p - eleOf prev))%Q as E
      by (apply Qabs_neg; lra).
    rewrite E. split_and!; lra.
  - apply not_true_iff_false in H1, H2. rewrite numLt_lt in H1, H2.
    apply Qnot_lt_le in H1, H2. split_and!; lra.
Qed.

Lemma elevationLoop_mono (rest : list TrackPoint) (prev : TrackPoint)
    (acc : Q * Q) :
  (fst acc <= fst (elevationLoop prev rest acc))%Q
  ∧ (snd acc <= snd (elevationLoop prev rest acc))%Q.
Proof.
  revert prev acc. induction rest as [|p rest IH]; intros prev acc;
    cbn [elevationLoop]; [split; lra|].
  destruct (elevationStep_spec prev p acc) as (H1 & H2 & _).
  destruct (IH p (elevationStep prev p acc)) as [H3 H4]. split; lra.
Qed.

Lemma elevationLoop_net (rest : list TrackPoint) (prev final : TrackPoint)
    (acc : Q * Q) :
  last (prev :: rest) = Some final →
  (fst (elevationLoop prev rest acc) - snd (elevationLoop prev rest acc)
   == fst acc - snd acc + (eleOf final - eleOf prev))%Q.
Proof.
  revert prev acc. induction rest as [|p rest IH]; intros prev acc Hl;
    cbn [elevationLoop].
  - simpl in Hl. simplify_eq. lra.
  - rewrite last_cons_cons in Hl.
    destruct (elevationStep_spec prev p acc) as (_ & _ & H3).
    rewrite (IH p _ Hl), H3. lra.
Qed.

Lemma elevationSums_nonneg (trkpts : list TrackPoint) :
  (0 <= fst (elevationSums trkpts))%Q ∧ (0 <= snd (elevationSums trkpts))%Q.
Proof.
  destruct trkpts as [|p0 rest]; [simpl; split; lra|].
  apply (elevationLoop_mono rest p0 (0%Q, 0%Q)).
Qed.

(** X18. Before rounding, the climb and the descent of a track are both
    non-negative, and their difference is the elevation of the last point
    minus that of the first (a point without an elevation counting as
    0). *)
Theorem climb_minus_descent_is_net_gain (trkpts : list TrackPoint)
    (first final : TrackPoint) :
  head trkpts = Some first → last trkpts = Some final →
  (0 <= fst (elevationSums trkpts))%Q
  ∧ (0 <= snd (elevationSums trkpts))%Q
  ∧ (fst (elevationSums trkpts) - snd (elevationSums trkpts)
     == eleOf final - eleOf first)%Q.
Proof.
  intros Hh Hl. destruct (elevationSums_nonneg trkpts) as [H1 H2].
  split_and!; [done | done |].
  destruct trkpts as [|p0 rest]; [done|]. simpl in Hh. simplify_eq.
  unfold elevationSums. rewrite (elevationLoop_net rest first final _ Hl).
  simpl. lra.
Qed.

Lemma climb_minus_descent_is_net_gain_witness :
  (fst (elevationSums rideTrack) == 519)%Q
  ∧ (snd (elevationSums rideTrack) == 512)%Q
  ∧ (fst (elevationSums rideTrack) - snd (elevationSums rideTrack)
     == 507 - 500)%Q.
Proof.
  split_and!; [reflexivity | reflexivity |].
  exact (proj2 (proj2 (climb_minus_descent_is_net_gain rideTrack _ _
                         eq_refl eq_refl))).
Defined.

Lemma roundTo10_spec (x : Q) :
  (0 <= x)%Q →
  (0 ≤ roundTo10 x)%Z
  ∧ (roundTo10 x `mod` 10 = 0)%Z
  ∧ (x - 5 < inject_Z (roundTo10 x))%Q
  ∧ (inject_Z (roundTo10 x) <= x + 5)%Q.
Proof.
  intros Hx. unfold roundTo10, Math_round.
  pose proof (Qfloor_le (x / 10 + (1 # 2))) as Hle.
  pose proof (Qlt_floor (x / 10 + (1 # 2))) as Hlt.
  assert (0 ≤ Qfloor (x / 10 + (1 # 2)))%Z as H0.
  { change 0%Z with (Qfloor 0). apply Qfloor_resp_le.
    assert (x / 10 == x * (1 # 10))%Q as E by field. rewrite E. lra. }
  rewrite inject_Z_plus in Hlt. change (inject_Z 1) with 1%Q in Hlt.
  rewrite inject_Z_mult. change (inject_Z 10) with 10%Q.
  generalize dependent (Qfloor (x / 10 + (1 # 2))). intros k Hle Hlt H0.
  assert (x / 10 == x * (1 # 10))%Q as E by field. rewrite E in Hle, Hlt.
  split_and!; [lia | apply Z_mod_mult | lra | lra].
Qed.

(** X19. The reported climb and descent are non-negative multiples of 10
    that differ from the sums of the track by at most 5. *)
Theorem reported_climb_is_rounded_to_ten (trkpts : list TrackPoint) :
  ((0 ≤ totalAsc (calculateElevationStats trkpts))%Z
   ∧ (totalAsc (calculateElevationStats trkpts) `mod` 10 = 0)%Z
   ∧ (fst (elevationSums trkpts) - 5
      < inject_Z (totalAsc (calculateElevationStats trkpts)))%Q
   ∧ (inject_Z (totalAsc (calculateElevationStats trkpts))
      <= fst (elevationSums trkpts) + 5)%Q)
  ∧ ((0 ≤ totalDesc (calculateElevationStats trkpts))%Z
     ∧ (totalDesc (calculateElevationStats trkpts) `mod` 10 = 0)%Z
     ∧ (snd (elevationSums trkpts) - 5
        < inject_Z (totalDesc (calculateElevationStats trkpts)))%Q
     ∧ (inject_Z (totalDesc (calculateElevationStats trkpts))
        <= snd (elevationSums trkpts) + 5)%Q).
Proof.
  destruct (elevationSums_nonneg trkpts) as [H1 H2].
  split; apply roundTo10_spec; done.
Qed.

(** ** Cumulative distances of the elevation profile *)

Section ProfileDistances.

Variable haversine : Q → Q → Q → Q → Q.

Lemma cumulativeLoop_poisoned (lats lons : list Q) (prevLat : Q)
    (prevLon t : option Q) (i : nat) (x : option Q) :
  length lons ≤ i →
  cumulativeLoop haversine prevLat prevLon lats lons t !! i = Some x →
  x = None.
Proof.
  revert lons prevLat prevLon t i.
  induction lats as [|la lats IH]; intros lons prevLat prevLon t i Hi Hx;
    [done|].
  cbn [cumulativeLoop] in Hx. destruct i as [|i].
  - destruct lons; [|simpl in Hi; lia]. simpl in Hx. simplify_eq.
    by destruct t, prevLon.
  - simpl in Hx. apply IH in Hx; [done|]. destruct lons; simpl in *; lia.
Qed.

(** X20. The list of cumulative distances starts with 0 and has one entry
    per latitude, except that no latitude at all still gives the one
    entry 0; and where the longitudes run out before the latitudes, every
    later entry is not a number. *)
Theorem cumulative_distances_shape (lats lons : list Q) :
  length (calculateCumulativeDistances haversine lats lons)
  = max 1 (length lats)
  ∧ calculateCumulativeDistances haversine lats lons !! 0 = Some (Some 0%Q)
  ∧ ∀ i, 1 ≤ i → i < length lats → length lons ≤ i →
         calculateCumulativeDistances haversine lats lons !! i = Some None.
Proof.
  split_and!.
  - destruct lats as [|la lats]; [done|]. simpl.
    rewrite cumulativeLoop_length. lia.
  - done.
  - intros i H1 Hi Hlen. destruct lats as [|la lats]; [simpl in Hi; lia|].
    destruct i as [|i]; [lia|]. simpl in *.
    destruct (cumulativeLoop haversine la (head lons) lats (tail lons) (Some 0%Q)
                !! i) as [x|] eqn:Hx.
    + apply cumulativeLoop_poisoned in Hx as ->; [done|].
      destruct lons; simpl in *; lia.
    + apply lookup_ge_None in Hx. rewrite cumulativeLoop_length in Hx. lia.
Qed.

Hypothesis haversine_nonneg : ∀ a b c d, (0 <= haversine a b c d)%Q.

Lemma cumulativeLoop_monotone (lats lons : list Q) (prevLat plo t : Q)
    (i j : nat) :
  length lats ≤ length lons → i ≤ j → j < S (length lats) →
  ∃ d d',
    (Some t :: cumulativeLoop haversine prevLat (Some plo) lats lons (Some t))
      !! i = Some (Some d)
    ∧ (Some t :: cumulativeLoop haversine prevLat (Some plo) lats lons (Some t))
        !! j = Some (Some d')
    ∧ (t <= d)%Q ∧ (d <= d')%Q.
Proof.
  revert lons prevLat plo t i j.
  induction lats as [|la lats IH]; intros lons prevLat plo t i j Hlen Hij Hj.
  - simpl in Hj. assert (j = 0) as -> by lia. assert (i = 0) as -> by lia.
    exists t, t. split_and!; [done | done | lra | lra].
  - destruct lons as [|lo lons]; [simpl in Hlen; lia|].
    cbn [cumulativeLoop head tail]. cbn [optAdd].
    pose proof (haversine_nonneg prevLat plo la lo) as Hh.
    simpl in Hlen, Hj. destruct j as [|j].
    + assert (i = 0) as -> by lia. exists t, t.
      split_and!; [done | done | lra | lra].
    + destruct i as [|i].
      * destruct (IH lons la lo (t + haversine prevLat plo la lo)%Q 0 j)
          as (d & d' & _ & H2 & H3 & H4); [lia | lia | lia |].
        exists t, d'. split_and!; [done | exact H2 | lra | lra].
      * destruct (IH lons la lo (t + haversine prevLat plo la lo)%Q i j)
          as (d & d' & H1 & H2 & H3 & H4); [lia | lia | lia |].
        exists d, d'. split_and!; [exact H1 | exact H2 | lra | lra].
Qed.

Lemma cumulative_monotone (lats lons : list Q) (i j : nat) :
  length lats ≤ length lons → i ≤ j →
  j < length (calculateCumulativeDistances haversine lats lons) →
  ∃ d d',
    calculateCumulativeDistances haversine lats lons !! i = Some (Some d)
    ∧ calculateCumulativeDistances haversine lats lons !! j = Some (Some d')
    ∧ (0 <= d)%Q ∧ (d <= d')%Q.
Proof.
  intros Hlen Hij Hj. destruct lats as [|la lats].
  - simpl in Hj. assert (j = 0) as -> by lia. assert (i = 0) as -> by lia.
    exists 0%Q, 0%Q. split_and!; [done | done | lra | lra].
  - destruct lons as [|lo lons]; [simpl in Hlen; lia|].
    unfold calculateCumulativeDistances in *. cbn [head tail] in *.
    simpl in Hj, Hlen. rewrite cumulativeLoop_length in Hj.
    apply cumulativeLoop_monotone; lia.
Qed.

(** X21. With distances that are never negative and a longitude for every
    latitude, every cumulative distance is a number, none is negative,
    and they never decrease along the route. *)
Theorem cumulative_distances_never_decrease (lats lons : list Q) (i j : nat) :
  length lats ≤ length lons → i ≤ j →
  j < length (calculateCumulativeDistances haversine lats lons) →
  ∃ d d',
    calculateCumulativeDistances haversine lats lons !! i = Some (Some d)
    ∧ calculateCumulativeDistances haversine lats lons !! j = Some (Some d')
    ∧ (0 <= d)%Q ∧ (d <= d')%Q.
Proof. apply cumulative_monotone. Qed.

(** X22. Under the same conditions, on a route of positive total length
    (the last cumulative distance) every point is drawn at a horizontal
    position between the left and the right edge of the plot area. *)
Theorem route_points_within_plot_width (cv : Canvas) (lats lons : list Q)
    (i : nat) (total : Q) :
  length lats ≤ length lons →
  (0 <= plotWidth cv)%Q →
  last (calculateCumulativeDistances haversine lats lons) = Some (Some total) →
  (0 < total)%Q →
  i < length (calculateCumulativeDistances haversine lats lons) →
  ∃ d x,
    calculateCumulativeDistances haversine lats lons !! i = Some (Some d)
    ∧ xOf cv d total = Some x
    ∧ (paddingLeft cv <= x)%Q ∧ (x <= canvasWidth cv - paddingRight cv)%Q.
Proof.
  intros Hlen Hw Hlast Ht Hi.
  rewrite last_lookup in Hlast.
  destruct (cumulative_monotone lats lons i
              (pred (length (calculateCumulativeDistances haversine lats lons))))
    as (d & d' & H1 & H2 & H3 & H4); [done | lia | lia |].
  rewrite Hlast in H2. simplify_eq.
  exists d. unfold xOf, jsDiv.
  destruct (Qeq_bool d' 0) eqn:E; [apply Qeq_bool_iff in E; lra|].
  cbn [mbind option_bind]. eexists. split_and!; [done | done | |].
  - assert (0 <= d / d')%Q by (apply Qle_shift_div_l; lra). nra.
  - assert (d / d' <= 1)%Q by (apply Qle_shift_div_r; lra).
    unfold plotWidth in *. nra.
Qed.

End ProfileDistances.

Lemma cumulative_distances_never_decrease_witness :
  (∀ a b c d, (0 <= planarKm a b c d)%Q)
  ∧ ∃ d d',
      calculateCumulativeDistances planarKm
        [46; 46 + 1 / 1000; 46 + 3 / 1000]%Q [7; 7; 7]%Q !! 1 = Some (Some d)
      ∧ calculateCumulativeDistances planarKm
          [46; 46 + 1 / 1000; 46 + 3 / 1000]%Q [7; 7; 7]%Q !! 2 = Some (Some d')
      ∧ (0 <= d)%Q ∧ (d <= d')%Q.
Proof.
  split; [exact planarKm_nonneg|].
  apply (cumulative_distances_never_decrease planarKm planarKm_nonneg
           [46; 46 + 1 / 1000; 46 + 3 / 1000]%Q [7; 7; 7]%Q 1 2);
    simpl; lia.
Defined.

Lemma route_points_within_plot_width_witness :
  (∀ a b c d, (0 <= planarKm a b c d)%Q)
  ∧ ∃ d x,
      calculateCumulativeDistances planarKm
        [46; 46 + 1 / 1000; 46 + 3 / 1000]%Q [7; 7; 7]%Q !! 1 = Some (Some d)
      ∧ xOf defaultCanvas d
          (0 + planarKm 46 7 (46 + 1 / 1000) 7
           + planarKm (46 + 1 / 1000) 7 (46 + 3 / 1000) 7)%Q
        = Some x
      ∧ (80 <= x)%Q ∧ (x <= 600 - 20)%Q.
Proof.
  split; [exact planarKm_nonneg|].
  apply (route_points_within_plot_width planarKm planarKm_nonneg defaultCanvas
           [46; 46 + 1 / 1000; 46 + 3 / 1000]%Q [7; 7; 7]%Q 1);
    [simpl; lia | vm_compute; discriminate | reflexivity | reflexivity
    | simpl; lia].
Defined.

(** ** The step between grid lines *)

Lemma pickStep_spec (rough : Q) (l : list Q) (b : Q) :
  (fold_left (λ bestStep s, if numGe rough s then s else bestStep) l b = b
   ∨ (fold_left (λ bestStep s, if numGe rough s then s else bestStep) l b ∈ l
      ∧ (fold_left (λ bestStep s, if numGe rough s then s else bestStep) l b
         <= rough)%Q))
  ∧ ((∀ s, s ∈ l → (rough < s)%Q) →
     fold_left (λ bestStep s, if numGe rough s then s else bestStep) l b = b)
  ∧ (StronglySorted Qle l → ∀ s, s ∈ l → (s <= rough)%Q →
     (s <= fold_left (λ bestStep s, if numGe rough s then s else bestStep) l b)%Q).
Proof.
  induction l as [|x l IH] using rev_ind.
  - split_and!; [by left | done | intros _ s Hs; by apply elem_of_nil in Hs].
  - rewrite fold_left_app. cbn [fold_left].
    destruct IH as (IH1 & IH2 & IH3).
    destruct (numGe rough x) eqn:Hx.
    + apply numGe_le in Hx. split_and!.
      * right. split; [|done].
        apply elem_of_app. right. by apply list_elem_of_singleton.
      * intros Hall.
        assert (rough < x)%Q
          by (apply Hall, elem_of_app; right; by apply list_elem_of_singleton).
        lra.
      * intros Hs s Hin _. apply elem_of_app in Hin as [Hin|Hin].
        -- eapply StronglySorted_app_1_elem_of; [exact Hs | exact Hin |].
           by apply list_elem_of_singleton.
        -- apply list_elem_of_singleton in Hin as ->. lra.
    + apply not_true_iff_false in Hx. rewrite numGe_le in Hx.
      split_and!.
      * destruct IH1 as [->|[H1 H2]]; [by left|]. right. split; [|done].
        apply elem_of_app. by left.
      * intros Hall. apply IH2. intros s Hs. apply Hall, elem_of_app. by left.
      * intros Hs s Hin Hle. apply elem_of_app in Hin as [Hin|Hin].
        -- apply IH3; [by apply StronglySorted_app_1_l in Hs | done | done].
        -- apply list_elem_of_singleton in Hin as ->. done.
Qed.

Lemma steps_sorted : StronglySorted Qle steps.
Proof.
  unfold steps. repeat (constructor; [|repeat constructor; lra]). constructor.
Qed.

Lemma steps_bounds (s : Q) : s ∈ steps → (0.1 <= s)%Q ∧ (s <= 500)%Q.
Proof.
  unfold steps. intros Hs.
  repeat (apply elem_of_cons in Hs as [->|Hs]; [split; lra|]).
  by apply elem_of_nil in Hs.
Qed.

Lemma niceStep_spec (range targetLines : Q) :
  niceStep range targetLines ∈ steps
  ∧ ((range / targetLines < 0.1)%Q → niceStep range targetLines = 0.1%Q)
  ∧ ((0.1 <= range / targetLines)%Q →
     (niceStep range targetLines <= range / targetLines)%Q)
  ∧ (∀ s, s ∈ steps → (s <= range / targetLines)%Q →
          (s <= niceStep range targetLines)%Q).
Proof.
  unfold niceStep.
  destruct (pickStep_spec (range / targetLines) steps 0.1%Q) as (H1 & H2 & H3).
  split_and!.
  - destruct H1 as [->|[H1 _]]; [|done]. unfold steps. apply elem_of_cons.
    by left.
  - intros Hlt. apply H2. intros s Hs. apply steps_bounds in Hs. lra.
  - intros Hge. destruct H1 as [->|[_ H1]]; done.
  - apply H3, steps_sorted.
Qed.

(** X23. For a non-zero number of lines, the step between grid lines is
    one of the twelve listed sizes: the smallest, 0.1, when the range
    divided by the number of lines is below 0.1, and otherwise the largest
    listed size that does not exceed that quotient. *)
Theorem nice_step_is_largest_listed_size_within (range targetLines : Q) :
  ¬ (targetLines == 0)%Q →
  niceStep range targetLines ∈ steps
  ∧ ((range / targetLines < 0.1)%Q → niceStep range targetLines = 0.1%Q)
  ∧ ((0.1 <= range / targetLines)%Q →
     (niceStep range targetLines <= range / targetLines)%Q)
  ∧ (∀ s, s ∈ steps → (s <= range / targetLines)%Q →
          (s <= niceStep range targetLines)%Q).
Proof. intros _. apply niceStep_spec. Qed.

Lemma nice_step_is_largest_listed_size_within_witness :
  ¬ (6 == 0)%Q
  ∧ niceStep 55 6 = 5%Q
  ∧ (niceStep 55 6 <= 55 / 6)%Q
  ∧ (5 <= niceStep 55 6)%Q.
Proof.
  assert (¬ (6 == 0)%Q) as H6 by (intros H; vm_compute in H; discriminate).
  destruct (nice_step_is_largest_listed_size_within 55 6 H6)
    as (_ & _ & H3 & H4).
  split_and!; [exact H6 | reflexivity | apply H3; vm_compute; discriminate |].
  apply H4; [unfold steps; repeat constructor | vm_compute; discriminate].
Defined.

(** X24. The grid is laid out for 6 horizontal lines and the labels for
    5.  The step of the labels is never smaller than that of the grid;
    for an elevation range from 25 up to 30 the grid lines are 2 apart
    and the labels 5 apart, so a label can fall between two grid
    lines. *)
Theorem label_step_can_differ_from_grid_step (range : Q) :
  (0 <= range)%Q →
  (niceStep range 6 <= niceStep range 5)%Q
  ∧ ((25 <= range)%Q → (range < 30)%Q →
     niceStep range 6 = 2%Q ∧ niceStep range 5 = 5%Q).
Proof.
  intros Hr.
  destruct (niceStep_spec range 6) as (G1 & G2 & G3 & G4).
  destruct (niceStep_spec range 5) as (L1 & L2 & L3 & L4).
  assert (range / 6 == range * (1 # 6))%Q as E6 by field.
  assert (range / 5 == range * (1 # 5))%Q as E5 by field.
  split.
  - destruct (Qlt_le_dec (range / 6) 0.1) as [Hlt|Hge].
    + rewrite (G2 Hlt). by apply steps_bounds.
    + apply L4; [done|]. specialize (G3 Hge). lra.
  - intros H25 H30. split.
    + assert (2 <= niceStep range 6)%Q as Hlo
        by (apply G4; [unfold steps; repeat constructor | lra]).
      assert (niceStep range 6 <= range / 6)%Q as Hhi by (apply G3; lra).
      revert G1 Hlo Hhi. generalize (niceStep range 6). intros s Hs Hlo Hhi.
      unfold steps in Hs.
      repeat (apply elem_of_cons in Hs as [->|Hs]; [try reflexivity; lra|]).
      by apply elem_of_nil in Hs.
    + assert (5 <= niceStep range 5)%Q as Hlo
        by (apply L4; [unfold steps; repeat constructor | lra]).
      assert (niceStep range 5 <= range / 5)%Q as Hhi by (apply L3; lra).
      revert L1 Hlo Hhi. generalize (niceStep range 5). intros s Hs Hlo Hhi.
      unfold steps in Hs.
      repeat (apply elem_of_cons in Hs as [->|Hs]; [try reflexivity; lra|]).
      by apply elem_of_nil in Hs.
Qed.

Lemma label_step_can_differ_from_grid_step_witness :
  (0 <= 26)%Q ∧ niceStep 26 6 = 2%Q ∧ niceStep 26 5 = 5%Q.
Proof.
  assert (0 <= 26)%Q as H0 by (vm_compute; discriminate).
  split; [exact H0|].
  apply (proj2 (label_step_can_differ_from_grid_step 26 H0));
    vm_compute; [discriminate | reflexivity].
Defined.

(** ** Vertical positions of the elevation profile *)

Lemma fold_Qmin_le (r : list Q) (x : Q) :
  (fold_left Qmin r x <= x)%Q ∧ ∀ e, e ∈ r → (fold_left Qmin r x <= e)%Q.
Proof.
  revert x. induction r as [|y r IH]; intros x; cbn [fold_left].
  - split; [lra|]. intros e He. by apply elem_of_nil in He.
  - destruct (IH (Qmin x y)) as [H1 H2].
    pose proof (Q.le_min_l x y). pose proof (Q.le_min_r x y).
    split; [lra|]. intros e [->|He]%elem_of_cons; [lra | by apply H2].
Qed.

Lemma fold_Qmax_ge (r : list Q) (x : Q) :
  (x <= fold_left Qmax r x)%Q ∧ ∀ e, e ∈ r → (e <= fold_left Qmax r x)%Q.
Proof.
  revert x. induction r as [|y r IH]; intros x; cbn [fold_left].
  - split; [lra|]. intros e He. by apply elem_of_nil in He.
  - destruct (IH (Qmax x y)) as [H1 H2].
    pose proof (Q.le_max_l x y). pose proof (Q.le_max_r x y).
    split; [lra|]. intros e [->|He]%elem_of_cons; [lra | by apply H2].
Qed.

Lemma fold_Qmin_glb (r : list Q) (x c : Q) :
  (c <= x)%Q → (∀ e, e ∈ r → (c <= e)%Q) → (c <= fold_left Qmin r x)%Q.
Proof.
  revert x. induction r as [|y r IH]; intros x Hx Hr; cbn [fold_left]; [done|].
  apply IH.
  - apply Q.min_glb; [done|]. apply Hr, elem_of_cons. by left.
  - intros e He. apply Hr, elem_of_cons. by right.
Qed.

Lemma fold_Qmax_lub (r : list Q) (x c : Q) :
  (x <= c)%Q → (∀ e, e ∈ r → (e <= c)%Q) → (fold_left Qmax r x <= c)%Q.
Proof.
  revert x. induction r as [|y r IH]; intros x Hx Hr; cbn [fold_left]; [done|].
  apply IH.
  - apply Q.max_lub; [done|]. apply Hr, elem_of_cons. by left.
  - intros e He. apply Hr, elem_of_cons. by right.
Qed.

Lemma Math_min_le (xs : list Q) (e : Q) : e ∈ xs → (Math_min xs <= e)%Q.
Proof.
  destruct xs as [|x r]; [by intros ?%elem_of_nil|].
  destruct (fold_Qmin_le r x) as [H1 H2].
  intros [->|He]%elem_of_cons; [done | by apply H2].
Qed.

Lemma Math_max_ge (xs : list Q) (e : Q) : e ∈ xs → (e <= Math_max xs)%Q.
Proof.
  destruct xs as [|x r]; [by intros ?%elem_of_nil|].
  destruct (fold_Qmax_ge r x) as [H1 H2].
  intros [->|He]%elem_of_cons; [done | by apply H2].
Qed.

(** X25. On a canvas whose plot area has a positive height, every
    elevation of a profile that is not flat is drawn at a vertical
    position strictly between the top and the bottom edge of the plot
    area. *)
Theorem elevations_strictly_inside_plot_height (cv : Canvas)
    (elevations : list Q) (e : Q) :
  (0 < plotHeight cv)%Q →
  e ∈ elevations →
  (Math_min elevations < Math_max elevations)%Q →
  ∃ y, yOf cv e (fst (plotElevations elevations))
         (snd (plotElevations elevations)) = Some y
       ∧ (paddingTop cv < y)%Q
       ∧ (y < canvasHeight cv - paddingBottom cv)%Q.
Proof.
  intros Hh He Hflat.
  pose proof (Math_min_le _ _ He) as Hlo. pose proof (Math_max_ge _ _ He) as Hhi.
  unfold yOf, jsDiv, plotElevations. cbn [fst snd].
  revert Hflat Hlo Hhi.
  generalize (Math_min elevations), (Math_max elevations).
  intros m M Hflat Hlo Hhi.
  destruct (Qeq_bool _ 0) eqn:E; [apply Qeq_bool_iff in E; lra|].
  cbn [mbind option_bind]. eexists. split; [done|].
  assert (0 < (e - (m - (M - m) * 0.01)) / (M + (M - m) * 0.01 - (m - (M - m) * 0.01)))%Q
    by (apply Qlt_shift_div_l; lra).
  assert ((e - (m - (M - m) * 0.01)) / (M + (M - m) * 0.01 - (m - (M - m) * 0.01)) < 1)%Q
    by (apply Qlt_shift_div_r; lra).
  unfold plotHeight in *. split; nra.
Qed.

Lemma elevations_strictly_inside_plot_height_witness :
  (0 < plotHeight defaultCanvas)%Q
  ∧ (Math_min [500; 512; 507] < Math_max [500; 512; 507])%Q
  ∧ ∃ y, yOf defaultCanvas 512 (fst (plotElevations [500; 512; 507]%Q))
           (snd (plotElevations [500; 512; 507]%Q)) = Some y
         ∧ (30 < y)%Q ∧ (y < 350 - 60)%Q.
Proof.
  assert (0 < plotHeight defaultCanvas)%Q as Hh by (vm_compute; reflexivity).
  assert (Math_min [500; 512; 507] < Math_max [500; 512; 507])%Q as Hf
    by (vm_compute; reflexivity).
  split; [exact Hh|]. split; [exact Hf|].
  apply (elevations_strictly_inside_plot_height defaultCanvas
           [500; 512; 507]%Q 512 Hh); [repeat constructor | exact Hf].
Defined.

(** X26. When all elevations of a profile are equal, no elevation at all
    has a finite vertical position: the quotient that places it has the
    divisor 0. *)
Theorem flat_profile_has_no_vertical_position (cv : Canvas)
    (elevations : list Q) (c e : Q) :
  elevations ≠ [] →
  (∀ x, x ∈ elevations → (x == c)%Q) →
  yOf cv e (fst (plotElevations elevations)) (snd (plotElevations elevations))
  = None.
Proof.
  intros Hne Hall. unfold yOf, jsDiv, plotElevations. cbn [fst snd].
  assert (Math_min elevations == c ∧ Math_max elevations == c)%Q as [Hm HM].
  { destruct elevations as [|x r]; [done|].
    assert (x == c)%Q as Hx by (apply Hall, elem_of_cons; by left).
    assert (∀ y, y ∈ r → (y == c)%Q) as Hr
      by (intros y Hy; apply Hall, elem_of_cons; by right).
    unfold Math_min, Math_max.
    destruct (fold_Qmin_le r x) as [H1 _]. destruct (fold_Qmax_ge r x) as [H2 _].
    assert (c <= fold_left Qmin r x)%Q
      by (apply fold_Qmin_glb; [lra | intros y Hy; specialize (Hr y Hy); lra]).
    assert (fold_left Qmax r x <= c)%Q
      by (apply fold_Qmax_lub; [lra | intros y Hy; specialize (Hr y Hy); lra]).
    split; lra. }
  destruct (Qeq_bool _ 0) eqn:E; [done|].
  apply Qeq_bool_neq in E. exfalso. apply E. lra.
Qed.

Lemma flat_profile_has_no_vertical_position_witness :
  yOf defaultCanvas 420 (fst (plotElevations [420; 420; 420]%Q))
    (snd (plotElevations [420; 420; 420]%Q)) = None.
Proof.
  apply (flat_profile_has_no_vertical_position defaultCanvas
           [420; 420; 420]%Q 420 420); [done|].
  intros x Hx. repeat (apply elem_of_cons in Hx as [->|Hx]; [reflexivity|]).
  by apply elem_of_nil in Hx.
Defined.

(** ** Recordings without long gaps *)

Section ShortGaps.

Variable haversine : Q → Q → Q → Q → Q.
Variable th : Thresholds.

Lemma rideStep_short_gap (prev p : TrackPoint) (acc : Q * Z) :
  (0 < tp_time p - tp_time prev)%Z →
  (inject_Z (tp_time p - tp_time prev) / 1000 < stopThreshold th)%Q →
  snd (rideStep haversine th prev p acc)
  = (snd acc + (tp_time p - tp_time prev))%Z.
Proof.
  intros Hpos Hgap. unfold rideStep.
  assert (numLt 0 (inject_Z (tp_time p - tp_time prev) / 1000) = true) as ->.
  { apply numLt_lt. rewrite Zlt_Qlt in Hpos. change (inject_Z 0) with 0%Q in Hpos.
    revert Hpos. generalize (inject_Z (tp_time p - tp_time prev)). intros x Hx.
    assert (x / 1000 == x * (1 # 1000))%Q as E by field. rewrite E. lra. }
  apply numLt_lt in Hgap. rewrite Hgap. simpl.
  by destruct (numLt (movingThreshold th) _).
Qed.

Lemma rideLoop_short_gaps (rest : list TrackPoint) (prev : TrackPoint)
    (acc : Q * Z) :
  (∀ i a b, (prev :: rest) !! i = Some a → (prev :: rest) !! S i = Some b →
     (0 < tp_time b - tp_time a)%Z
     ∧ (inject_Z (tp_time b - tp_time a) / 1000 < stopThreshold th)%Q) →
  snd (rideLoop haversine th prev rest acc)
  = (snd acc + (tp_time (default prev (last rest)) - tp_time prev))%Z.
Proof.
  revert prev acc. induction rest as [|p rest IH]; intros prev acc Hgaps;
    cbn [rideLoop].
  - simpl. lia.
  - destruct (Hgaps 0 prev p eq_refl eq_refl) as [Hpos Hgap].
    rewrite IH by (intros i a b Ha Hb; by apply (Hgaps (S i))).
    rewrite (rideStep_short_gap prev p acc Hpos Hgap).
    assert (default prev (last (p :: rest)) = default p (last rest)) as ->
      by (rewrite last_cons; by destruct (last rest)).
    lia.
Qed.

(** X27. When every time stamp is later than the one before it by less
    than the stop threshold, the ride time is the whole elapsed time,
    whatever the distances: standing still is not noticed in a recording
    without a long gap. *)
Theorem short_gaps_all_count_as_ride_time (trkpts : list TrackPoint)
    (ts : TimeStats) (rs : RideStats) (es : ElevationStats) :
  (∀ i a b, trkpts !! i = Some a → trkpts !! S i = Some b →
     (0 < tp_time b - tp_time a)%Z
     ∧ (inject_Z (tp_time b - tp_time a) / 1000 < stopThreshold th)%Q) →
  statsOf haversine th trkpts = Some (ts, rs, es) →
  rideTimeMs rs = timeDiffMs ts.
Proof.
  intros Hgaps Hstats. destruct trkpts as [|p rest]; [done|].
  unfold statsOf in Hstats. rewrite calculateTimeStats_cons in Hstats.
  cbn [mbind option_bind] in Hstats. simplify_eq. cbn [timeDiffMs].
  unfold calculateDistanceAndRideTime, rideSums. cbn [rideTimeMs].
  rewrite (rideLoop_short_gaps rest p _ Hgaps). simpl. lia.
Qed.

End ShortGaps.

Lemma short_gaps_all_count_as_ride_time_witness :
  ∃ ts rs es,
    statsOf planarKm defaultThresholds (take 2 rideTrack) = Some (ts, rs, es)
    ∧ timeDiffMs ts = 10000%Z
    ∧ rideTimeMs rs = timeDiffMs ts.
Proof.
  destruct (statsOf planarKm defaultThresholds (take 2 rideTrack))
    as [[[ts rs] es]|] eqn:H; [|vm_compute in H; discriminate].
  exists ts, rs, es. split; [reflexivity|].
  split; [vm_compute in H; by simplify_eq|].
  apply (short_gaps_all_count_as_ride_time planarKm defaultThresholds
           (take 2 rideTrack) ts rs es); [|exact H].
  intros i a b Ha Hb. destruct i as [|[|i]]; simpl in Ha, Hb; simplify_eq.
  split; [simpl; lia | vm_compute; reflexivity].
Defined.
